(** * Green Energy integration: API client and sync coordinator

    A shallow embedding of [custom_components/green_energy/api.py],
    [coordinator.py] and the status sensor of [sensor.py], with the
    properties of the synchronisation logic proved about it.

    The Python code is asynchronous: every method is a coroutine that runs
    on one event loop and gives up control only at an [await].  A coroutine
    is embedded as a resumption: it runs on the object's state until it
    returns, raises, or stops at an awaitable together with the code that
    runs once the awaitable is answered.  Whatever else the event loop ran
    in the meantime shows in the state the continuation is resumed with.

    The file has three parts: the embedding of the source, in source
    order, with a driver for single coroutines ([run]) and a model of the
    event loop ([EventLoop]); the vocabulary of the statements; and the
    properties, one theorem for each claim C1 to C10 about the program,
    followed by further properties X1, X2, ... of the same code. *)

From stdpp Require Import gmap strings list pretty.
From Stdlib Require Import ZArith Lia.

Open Scope Z_scope.

(** ** Python values *)

(** The scalar values that travel in JSON bodies and in the client's
    credential fields.  [PNone] is Python's [None]. *)
Inductive pyval : Type :=
| PNone
| PBool (b : bool)
| PInt (z : Z)
| PStr (s : string).

#[global] Instance pyval_eq_dec : EqDecision pyval.
Proof. solve_decision. Defined.

(** Truth value of an object, as [not x] and [if x] test it. *)
Definition truthy (v : pyval) : bool :=
  match v with
  | PNone => false
  | PBool b => b
  | PInt z => negb (z =? 0)
  | PStr s => negb (String.eqb s "")
  end.

(** [str(v)], as an f-string formats it. *)
Definition py_str (v : pyval) : string :=
  match v with
  | PNone => "None"
  | PBool true => "True"
  | PBool false => "False"
  | PInt z => pretty z
  | PStr s => s
  end.

(** A JSON object decoded to a [dict]. *)
Abbreviation pydict := (gmap string pyval).

(** [d.get(k)] and [d.get(k, default)]. *)
Definition dict_get (d : pydict) (k : string) : pyval :=
  default PNone (d !! k).
Definition dict_get_default (d : pydict) (k : string) (dflt : pyval) : pyval :=
  default dflt (d !! k).

(** ** Exceptions *)

Inductive exn_class : Type :=
| GreenEnergyApiError
| InvalidPairingCode
| CannotConnect
| AuthenticationError
| AsyncioTimeoutError
| AiohttpClientError
| CancelledError
| KeyError
| UpdateFailed
| JSONDecodeError
| AttributeError
| TypeError.

#[global] Instance exn_class_eq_dec : EqDecision exn_class.
Proof. solve_decision. Defined.

(** An exception object: its class and its argument. *)
Record exn : Type := Exn { exn_cls : exn_class; exn_arg : pyval }.

#[global] Instance exn_eq_dec : EqDecision exn.
Proof. solve_decision. Defined.

(** [isinstance(e, GreenEnergyApiError)]: the base class and its three
    subclasses declared in api.py. *)
Definition is_api_error (e : exn) : bool :=
  match exn_cls e with
  | GreenEnergyApiError | InvalidPairingCode | CannotConnect
  | AuthenticationError => true
  | _ => false
  end.

(** ** Readings *)

(** The dict built by [_handle_state_change] for one state change. *)
Record reading : Type := Reading {
  r_entity_id : string;
  r_state : string;
  r_attributes : gmap string pyval;
  r_timestamp : string
}.

#[global] Instance reading_eq_dec : EqDecision reading.
Proof. solve_decision. Defined.

(** ** HTTP requests and awaitables *)

Inductive http_method : Type := GET | POST.

(** The [json=] or [params=] argument of a request. *)
Inductive payload : Type :=
| PairingPayload (pairing_code : string)
| ReadingsPayload (instance_id : pyval) (readings : list reading)
| InstancePayload (instance_id : pyval).

Record http_request : Type := HttpRequest {
  rq_method : http_method;
  rq_url : string;
  rq_payload : payload;
  rq_headers : gmap string string
}.

(** What the session call under [asyncio.timeout(API_TIMEOUT)] comes back
    with, when the body of the response is a JSON object: [body] is what
    [await response.json()] then returns. *)
Inductive http_result : Type :=
| Response (status : Z) (body : pydict)
| TimedOut
| ClientError (msg : string).

(** What [await response.json()] does with a body that is no JSON object:
    it raises [aiohttp.ContentTypeError], which is an
    [aiohttp.ClientError]; it raises [json.JSONDecodeError]; or it returns
    the list, string, number, boolean or [None] the body decodes to.  The
    code calls [json()] inside the [try] of the method, so that a
    transport error or a timeout while the body is read ends the call as
    the results [ClientError] and [TimedOut] do. *)
Inductive bad_body : Type :=
| BadContentType (msg : string)
| BadJson (msg : string)
| NotAnObject.

(** Any answer to a session call: a result as above, or a response with
    a status and a body that is no JSON object. *)
Inductive http_reply : Type :=
| Reply (r : http_result)
| BadReply (status : Z) (bad : bad_body).

(** The body of a response, for [json()] to read. *)
Definition response_body : Type := pydict + bad_body.

(** The value [await response.json()] returns: a [dict], or something
    else, which has no [get] and no string keys. *)
Inductive json_value : Type :=
| JsonObject (d : pydict)
| JsonOther.

(** The places where the code awaits something outside itself, indexed by
    the type of the answer.  A session call and the [await
    response.json()] that may follow it are one place: the code reads no
    state between the two. *)
Inductive awaitable : Type -> Type :=
| HttpCall (rq : http_request) : awaitable http_reply
| AsyncioSleep (seconds : Z) : awaitable unit
| AsyncRequestRefresh : awaitable unit.

(** ** Coroutines *)

Section Coroutine.
Context {S : Type}.

(** A coroutine over object state [S].  At an [Await] the state reached
    so far is visible to the rest of the program; the answer [None]
    stands for the task having been cancelled while it waited. *)
Inductive coro (A : Type) : Type :=
| Ret (s : S) (a : A)
| Raise (s : S) (e : exn)
| Await (s : S) {R : Type} (w : awaitable R) (k : option R -> S -> coro A).

#[global] Arguments Ret {A} s a.
#[global] Arguments Raise {A} s e.
#[global] Arguments Await {A} s {R} w k.

Definition M (A : Type) : Type := S -> coro A.

Definition ret {A} (a : A) : M A := fun s => Ret s a.
Definition raise {A} (e : exn) : M A := fun s => Raise s e.

Fixpoint bind_coro {A B} (c : coro A) (f : A -> M B) : coro B :=
  match c with
  | Ret s a => f a s
  | Raise s e => Raise s e
  | Await s w k => Await s w (fun o s' => bind_coro (k o s') f)
  end.

Definition bind {A B} (m : M A) (f : A -> M B) : M B :=
  fun s => bind_coro (m s) f.

(** [try: m  except ...: h]: [h e] is [Some] handler when an [except]
    clause matches [e]. *)
Fixpoint catch_coro {A} (c : coro A) (h : exn -> option (M A)) : coro A :=
  match c with
  | Ret s a => Ret s a
  | Raise s e => match h e with
                 | Some m => m s
                 | None => Raise s e
                 end
  | Await s w k => Await s w (fun o s' => catch_coro (k o s') h)
  end.

Definition try_except {A} (m : M A) (h : exn -> option (M A)) : M A :=
  fun s => catch_coro (m s) h.

Definition gets {A} (f : S -> A) : M A := fun s => Ret s (f s).
Definition modify (f : S -> S) : M unit := fun s => Ret (f s) tt.

(** [await w]; cancellation raises [CancelledError] at the await. *)
Definition await {R} (w : awaitable R) : M R :=
  fun s => Await s w (fun o s' =>
    match o with
    | Some r => Ret s' r
    | None => Raise s' (Exn CancelledError PNone)
    end).
End Coroutine.

Arguments coro : clear implicits.
Arguments M : clear implicits.

#[global] Instance coro_ret {S} : MRet (M S) := fun A a => ret a.
#[global] Instance coro_bind {S} : MBind (M S) := fun A B f m => bind m f.

(** [await response.json()], once the response is there. *)
Definition json {S} (body : response_body) : M S json_value :=
  match body with
  | inl d => mret (JsonObject d)
  | inr (BadContentType msg) => raise (Exn AiohttpClientError (PStr msg))
  | inr (BadJson msg) => raise (Exn JSONDecodeError (PStr msg))
  | inr NotAnObject => mret JsonOther
  end.

(** [data.get(key)], [data.get(key, default)] and [data[key]] on what
    [json()] returned.  Only a [dict] has [get]; the subscript with a
    string raises [TypeError] on everything else. *)
Definition json_get {S} (data : json_value) (key : string) : M S pyval :=
  match data with
  | JsonObject d => mret (dict_get d key)
  | JsonOther => raise (Exn AttributeError PNone)
  end.

Definition json_get_default {S} (data : json_value) (key : string)
    (dflt : pyval) : M S pyval :=
  match data with
  | JsonObject d => mret (dict_get_default d key dflt)
  | JsonOther => raise (Exn AttributeError PNone)
  end.

Definition json_subscript {S} (data : json_value) (key : string)
    : M S pyval :=
  match data with
  | JsonObject d =>
      match d !! key with
      | Some v => mret v
      | None => raise (Exn KeyError (PStr key))
      end
  | JsonOther => raise (Exn TypeError PNone)
  end.

(** Running a method of a component object inside the object that owns
    it: [get] reads the component, [set] writes it back. *)
Fixpoint zoom_coro {S T A} (get : S -> T) (set : T -> S -> S)
    (s : S) (c : coro T A) : coro S A :=
  match c with
  | Ret t a => Ret (set t s) a
  | Raise t e => Raise (set t s) e
  | Await t w k =>
      Await (set t s) w (fun o s' => zoom_coro get set s' (k o (get s')))
  end.

Definition zoom {S T A} (get : S -> T) (set : T -> S -> S)
    (m : M T A) : M S A :=
  fun s => zoom_coro get set s (m (get s)).

(** ** api.py: [GreenEnergyApiClient] *)

Module Api.

(** The client object.  [_api_url] holds the URL as the constructor leaves
    it; [_token] and [_instance_id] are [PNone] until set. *)
Record client : Type := Client {
  _api_url : string;
  _token : pyval;
  _instance_id : pyval
}.

Definition set_token (v : pyval) (c : client) : client :=
  {| _api_url := _api_url c; _token := v; _instance_id := _instance_id c |}.
Definition set_instance_id (v : pyval) (c : client) : client :=
  {| _api_url := _api_url c; _token := _token c; _instance_id := v |}.

(** [_headers] *)
Definition _headers (c : client) : gmap string string :=
  let headers : gmap string string :=
    <["Content-Type" := "application/json"]>
      (<["Accept" := "application/json"]> ∅) in
  if truthy (_token c)
  then <["Authorization" := "Bearer " +:+ py_str (_token c)]> headers
  else headers.

(** [async with asyncio.timeout(API_TIMEOUT): response = await
    self._session.post(...)] (or [.get]): the awaited call either yields a
    response, of which the code reads [status] and, on some paths, the
    body, or raises [asyncio.TimeoutError] or an [aiohttp.ClientError]. *)
Definition session_request (rq : http_request)
    : M client (Z * response_body) :=
  r ← await (HttpCall rq);
  match r with
  | Reply (Response status body) => mret (status, inl body)
  | Reply TimedOut => raise (Exn AsyncioTimeoutError PNone)
  | Reply (ClientError msg) => raise (Exn AiohttpClientError (PStr msg))
  | BadReply status bad => mret (status, inr bad)
  end.

(** The two [except] clauses that close every method:
    [except asyncio.TimeoutError] and [except aiohttp.ClientError]. *)
Definition except_connect {A} (err : exn) : option (M client A) :=
  match exn_cls err with
  | AsyncioTimeoutError =>
      Some (raise (Exn CannotConnect (PStr "Request timed out")))
  | AiohttpClientError =>
      Some (raise (Exn CannotConnect
                     (PStr ("Connection error: " +:+ py_str (exn_arg err)))))
  | _ => None
  end.

Definition status_error (status : Z) : exn :=
  Exn GreenEnergyApiError (PStr ("API returned status " +:+ pretty status)).

Definition not_authenticated : exn :=
  Exn AuthenticationError (PStr "Not authenticated").
Definition invalid_token : exn :=
  Exn AuthenticationError (PStr "Invalid or expired token").
Definition invalid_code : exn :=
  Exn InvalidPairingCode (PStr "Invalid or expired pairing code").

(** [async_pair] *)
Definition async_pair (pairing_code : string) : M client json_value :=
  try_except
    (url ← gets (λ c, _api_url c +:+ "/api/ha/pair");
     headers ← gets _headers;
     '(status, response) ← session_request
        (HttpRequest POST url (PairingPayload pairing_code) headers);
     if decide (status = 400) then
       data ← json response;
       error ← json_get data "error";
       if decide (error = PStr "invalid_code")
       then raise invalid_code
       else
         error ← json_get_default data "error" (PStr "Unknown error");
         raise (Exn GreenEnergyApiError error)
     else if decide (status = 401) then raise invalid_code
     else if decide (status ≠ 200) then raise (status_error status)
     else
       data ← json response;
       token ← json_subscript data "api_token";
       modify (set_token token);;
       instance_id ← json_subscript data "instance_id";
       modify (set_instance_id instance_id);;
       mret data)
    except_connect.

(** [if not self._token or not self._instance_id] *)
Definition unauthenticated (c : client) : bool :=
  negb (truthy (_token c)) || negb (truthy (_instance_id c)).

(** [async_post_readings] *)
Definition async_post_readings (readings : list reading)
    : M client json_value :=
  c ← gets id;
  if unauthenticated c then raise not_authenticated
  else
    let payload := ReadingsPayload (_instance_id c) readings in
    try_except
      (url ← gets (λ c, _api_url c +:+ "/api/ha/readings");
       headers ← gets _headers;
       '(status, response) ←
         session_request (HttpRequest POST url payload headers);
       if decide (status = 401) then raise invalid_token
       else if decide (status ≠ 200) then raise (status_error status)
       else json response)
      except_connect.

(** [async_get_status] *)
Definition async_get_status : M client json_value :=
  c ← gets id;
  if unauthenticated c then raise not_authenticated
  else
    try_except
      (url ← gets (λ c, _api_url c +:+ "/api/ha/status");
       params ← gets (λ c, InstancePayload (_instance_id c));
       headers ← gets _headers;
       '(status, response) ←
         session_request (HttpRequest GET url params headers);
       if decide (status = 401) then raise invalid_token
       else if decide (status ≠ 200) then raise (status_error status)
       else json response)
      except_connect.

(** [async_unpair] *)
Definition async_unpair : M client bool :=
  c ← gets id;
  if unauthenticated c then raise not_authenticated
  else
    try_except
      (url ← gets (λ c, _api_url c +:+ "/api/ha/unpair");
       json ← gets (λ c, InstancePayload (_instance_id c));
       headers ← gets _headers;
       '(status, _) ← session_request (HttpRequest POST url json headers);
       if decide (status = 401) then raise invalid_token
       else mret (bool_decide (status = 200)))
      except_connect.

End Api.

(** ** coordinator.py: [GreenEnergyCoordinator] *)

Module Coordinator.
Import Api.

(** A [datetime]: its calendar date and its time of day, both as
    [isoformat()] prints them. *)
Record datetime : Type := Datetime { dt_date : string; dt_time : string }.

#[global] Instance datetime_eq_dec : EqDecision datetime.
Proof. solve_decision. Defined.

Definition isoformat (d : datetime) : string :=
  dt_date d +:+ "T" +:+ dt_time d.

(** A task of the event loop, as [Task.done()] sees it. *)
Inductive task_status : Type := TaskPending | TaskFinished | TaskCancelled.

#[global] Instance task_status_eq_dec : EqDecision task_status.
Proof. solve_decision. Defined.

(** What the coordinator uses of the [hass] object: the wall clock read by
    [datetime.now()] and the tasks made by [hass.async_create_task], which
    a task handle indexes.  Every task made by this code runs
    [_async_debounced_upload]. *)
Record hass_t : Type := Hass {
  clock : datetime;
  loop_tasks : list task_status
}.

(** The state of an entity that a state-change event carries. *)
Record ha_state : Type := HaState {
  st_state : string;
  st_attributes : gmap string pyval;
  st_last_updated : datetime
}.

(** [event.data] of a state-change event. *)
Record event : Type := Event {
  ev_entity_id : string;
  ev_new_state : option ha_state
}.

(** The fields of [GreenEnergyCoordinator] set in [__init__]. *)
Record coordinator : Type := Coord {
  hass : hass_t;
  _api_client : client;
  _data_buffer : list reading;
  _upload_task : option nat;
  _last_upload : option datetime;
  _readings_today : Z;
  _readings_today_date : option string
}.

Definition set_hass (h : hass_t) (c : coordinator) : coordinator :=
  Coord h (_api_client c) (_data_buffer c) (_upload_task c)
        (_last_upload c) (_readings_today c) (_readings_today_date c).
Definition set_api_client (a : client) (c : coordinator) : coordinator :=
  Coord (hass c) a (_data_buffer c) (_upload_task c)
        (_last_upload c) (_readings_today c) (_readings_today_date c).
Definition set_data_buffer (b : list reading) (c : coordinator) : coordinator :=
  Coord (hass c) (_api_client c) b (_upload_task c)
        (_last_upload c) (_readings_today c) (_readings_today_date c).
Definition set_upload_task (t : option nat) (c : coordinator) : coordinator :=
  Coord (hass c) (_api_client c) (_data_buffer c) t
        (_last_upload c) (_readings_today c) (_readings_today_date c).
Definition set_last_upload (d : option datetime) (c : coordinator) : coordinator :=
  Coord (hass c) (_api_client c) (_data_buffer c) (_upload_task c)
        d (_readings_today c) (_readings_today_date c).
Definition set_readings_today (n : Z) (c : coordinator) : coordinator :=
  Coord (hass c) (_api_client c) (_data_buffer c) (_upload_task c)
        (_last_upload c) n (_readings_today_date c).
Definition set_readings_today_date (d : option string) (c : coordinator)
    : coordinator :=
  Coord (hass c) (_api_client c) (_data_buffer c) (_upload_task c)
        (_last_upload c) (_readings_today c) d.

(** [__init__]: the client gets the stored credentials, everything else
    starts empty; no task of this coordinator exists yet. *)
Definition init (clk : datetime) (api_url : string) (token instance_id : pyval)
    : coordinator :=
  Coord (Hass clk []) (Client api_url token instance_id) [] None None 0 None.

(** [datetime.now()] *)
Definition now (self : coordinator) : datetime := clock (hass self).

(** A method of [self._api_client] called from the coordinator. *)
Definition on_client {A} (m : M client A) : M coordinator A :=
  zoom _api_client set_api_client m.

(** [_async_upload_buffered_data] *)
Definition _async_upload_buffered_data : M coordinator unit :=
  buffer ← gets _data_buffer;
  if bool_decide (buffer = []) then mret tt
  else
    let readings := buffer in
    modify (set_data_buffer []);;
    try_except
      (on_client (async_post_readings readings);;
       modify (λ self, set_last_upload (Some (now self)) self);;
       modify (λ self,
         set_readings_today
           (_readings_today self + Z.of_nat (length readings)) self))
      (λ err,
         if is_api_error err
         then Some (modify (λ self,
                      set_data_buffer (_data_buffer self ++ readings) self))
         else None).

(** The [except] clauses of [_async_update_data], in source order. *)
Definition except_update_failed {A} (err : exn) : option (M coordinator A) :=
  let failed (prefix : string) :=
    Some (raise (Exn UpdateFailed (PStr (prefix +:+ py_str (exn_arg err))))) in
  match exn_cls err with
  | AuthenticationError => failed "Authentication failed: "
  | CannotConnect => failed "Cannot connect: "
  | GreenEnergyApiError | InvalidPairingCode => failed "API error: "
  | _ => None
  end.

(** The end of [_async_update_data], from [# Track readings count per day]
    on: the daily counter is brought to today's date and the dict to
    return is built from [status], with the first [status.get] raising
    when [status] is no dict. *)
Definition build_snapshot (status : json_value) : M coordinator pydict :=
  today ← gets (λ self, dt_date (now self));
  stored ← gets _readings_today_date;
  (if decide (stored ≠ Some today)
   then modify (set_readings_today 0);;
        modify (set_readings_today_date (Some today))
   else mret tt);;
  self ← gets id;
  recommendation ←
    json_get_default status "recommendation" (PStr "No action needed");
  recommendation_reason ← json_get status "recommendation_reason";
  recommendation_expires ← json_get status "recommendation_expires";
  savings_today ← json_get_default status "savings_today_pence" (PInt 0);
  tariff_rate ← json_get status "current_rate_pence";
  mret (<["connected" := PBool true]>
       (<["sync_status" := PStr "synced"]>
       (<["last_sync" := PStr (isoformat (now self))]>
       (<["readings_today" := PInt (_readings_today self)]>
       (<["recommendation" := recommendation]>
       (<["recommendation_reason" := recommendation_reason]>
       (<["recommendation_expires" := recommendation_expires]>
       (<["savings_today" := savings_today]>
       (<["tariff_rate" := tariff_rate]>
          (∅ : pydict)))))))))).

(** [_async_update_data]: the dict it returns becomes [coordinator.data]. *)
Definition _async_update_data : M coordinator pydict :=
  _async_upload_buffered_data;;
  status ← try_except (on_client async_get_status) except_update_failed;
  build_snapshot status.

(** [self._upload_task.done()] for a task handle. *)
Definition task_done (h : hass_t) (t : nat) : bool :=
  match loop_tasks h !! t with
  | Some TaskPending => false
  | _ => true
  end.

(** [self.hass.async_create_task(...)]: a fresh pending task; its handle
    is its index. *)
Definition async_create_task (h : hass_t) : hass_t * nat :=
  (Hass (clock h) (loop_tasks h ++ [TaskPending]), length (loop_tasks h)).

(** [_schedule_upload] *)
Definition _schedule_upload (self : coordinator) : coordinator :=
  let create :=
    let '(h, t) := async_create_task (hass self) in
    set_upload_task (Some t) (set_hass h self) in
  match _upload_task self with
  | Some t => if negb (task_done (hass self) t) then self else create
  | None => create
  end.

(** The four attribute keys a reading keeps. *)
Definition kept_attributes : list string :=
  ["unit_of_measurement"; "device_class"; "state_class"; "friendly_name"].

Definition make_reading (entity_id : string) (new_state : ha_state) : reading :=
  {| r_entity_id := entity_id;
     r_state := st_state new_state;
     r_attributes :=
       filter (λ kv, kv.1 ∈ kept_attributes) (st_attributes new_state);
     r_timestamp := isoformat (st_last_updated new_state) |}.

(** [_handle_state_change]: a plain callback, it never awaits. *)
Definition _handle_state_change (ev : event) (self : coordinator) : coordinator :=
  let entity_id := ev_entity_id ev in
  match ev_new_state ev with
  | None => self
  | Some new_state =>
      let reading := make_reading entity_id new_state in
      _schedule_upload
        (set_data_buffer (_data_buffer self ++ [reading]) self)
  end.

(** [_async_debounced_upload] *)
Definition _async_debounced_upload : M coordinator unit :=
  await (AsyncioSleep 5);;
  _async_upload_buffered_data;;
  await AsyncRequestRefresh.

End Coordinator.

(** ** sensor.py: [GreenEnergySyncStatusSensor] and
    [GreenEnergyReadingsTodaySensor] *)

Module SyncStatusSensor.

(** [native_value], with [data] the coordinator's [data] attribute. *)
Definition native_value (data : option pydict) : pyval :=
  match data with
  | None => PStr "unknown"
  | Some d => dict_get_default d "sync_status" (PStr "unknown")
  end.

(** [icon] *)
Definition icon (data : option pydict) : string :=
  let status := native_value data in
  if decide (status = PStr "synced") then "mdi:cloud-check"
  else if decide (status = PStr "syncing") then "mdi:cloud-sync"
  else if decide (status = PStr "error") then "mdi:cloud-alert"
  else "mdi:cloud-question".

End SyncStatusSensor.

Module ReadingsTodaySensor.

(** [native_value]: "the number of readings uploaded today". *)
Definition native_value (data : option pydict) : pyval :=
  match data with
  | None => PInt 0
  | Some d => dict_get_default d "readings_today" (PInt 0)
  end.

End ReadingsTodaySensor.

(** ** Running coroutines *)

(** What the outside world answers to an awaitable. *)
Inductive answer : Type :=
| AnsHttp (r : http_result)
| AnsBadBody (status : Z) (bad : bad_body)
| AnsDone
| AnsCancel.

(** The answer read at the type the awaitable expects; [None] when it
    does not fit. *)
Definition typed {R} (w : awaitable R) (a : answer) : option (option R) :=
  match w in awaitable R return option (option R) with
  | HttpCall _ =>
      match a with
      | AnsHttp r => Some (Some (Reply r))
      | AnsBadBody status bad => Some (Some (BadReply status bad))
      | AnsCancel => Some None
      | AnsDone => None
      end
  | AsyncioSleep _ | AsyncRequestRefresh =>
      match a with
      | AnsDone => Some (Some tt)
      | AnsCancel => Some None
      | AnsHttp _ | AnsBadBody _ _ => None
      end
  end.

(** The answer that stands for a reply to a session call. *)
Definition reply_answer (r : http_reply) : answer :=
  match r with
  | Reply r => AnsHttp r
  | BadReply status bad => AnsBadBody status bad
  end.

(** An awaitable of any answer type, for the list of what a run awaited. *)
Inductive awaited : Type :=
| Awaited {R : Type} (w : awaitable R).

(** How a run ends: the coroutine returned, raised, or still waits. *)
Inductive outcome (S A : Type) : Type :=
| Returned (s : S) (a : A)
| Raised (s : S) (e : exn)
| Blocked (s : S).
Arguments Returned {S A} s a.
Arguments Raised {S A} s e.
Arguments Blocked {S A} s.

(** [run c script] runs one coroutine to its end.  Each entry of the
    script serves one await: the second component is what the rest of the
    program did to the state while the coroutine waited, the first the
    answer it is resumed with.  The coroutine stays [Blocked] at an await
    the script has no fitting answer for.  The result comes with the list
    of everything awaited. *)
Fixpoint run {S A} (c : coro S A) (script : list (answer * (S -> S)))
    : outcome S A * list awaited :=
  match c with
  | Ret s a => (Returned s a, [])
  | Raise s e => (Raised s e, [])
  | Await s w k =>
      match script with
      | [] => (Blocked s, [Awaited w])
      | (a, f) :: rest =>
          match typed w a with
          | None => (Blocked s, [Awaited w])
          | Some o =>
              let '(out, tr) := run (k o (f s)) rest in
              (out, Awaited w :: tr)
          end
      end
  end.

(** The state a run ends in. *)
Definition final {S A} (o : outcome S A) : S :=
  match o with
  | Returned s _ | Raised s _ | Blocked s => s
  end.

(** ** The event loop around the coordinator *)

Module EventLoop.
Import Api Coordinator.

(** The coordinator object together with what the event loop holds for
    it: the upload tasks that wait at an await (by task handle), the
    refresh cycles of the update-coordinator base class that wait at an
    await, the [data] attribute, and a log of the network requests made. *)
Record loop : Type := Loop {
  self : coordinator;
  uploads : gmap nat (coro coordinator unit);
  refreshes : gmap nat (coro coordinator pydict);
  data : option pydict;
  http_log : list http_request
}.

(** What can happen at a turn of the loop: a state change of a monitored
    entity is delivered to [_handle_state_change]; the clock moves on; a
    task made by [async_create_task] starts to run; a waiting task gets
    its answer (its sleep is over, its request comes back, it is
    cancelled); the base class starts a refresh cycle, which runs
    [_async_update_data]; a waiting refresh cycle gets its answer. *)
Inductive action : Type :=
| StateChange (ev : event)
| Tick (d : datetime)
| StartTask (t : nat)
| ResumeTask (t : nat) (a : answer)
| StartRefresh (i : nat)
| ResumeRefresh (i : nat) (a : answer).

(** The task [t] has run to its end: [done()] holds from now on. *)
Definition finish_task (t : nat) (st : task_status) (s : coordinator)
    : coordinator :=
  set_hass (Hass (clock (hass s)) (<[t := st]> (loop_tasks (hass s)))) s.

Definition end_status (e : exn) : task_status :=
  if decide (exn_cls e = CancelledError) then TaskCancelled else TaskFinished.

(** A request goes out when a coroutine stops at a network call. *)
Definition log_await {A} (c : coro coordinator A) (log : list http_request)
    : list http_request :=
  match c with
  | Await _ (HttpCall rq) _ => log ++ [rq]
  | _ => log
  end.

(** The upload task [t] ran up to [c]. *)
Definition settle_task (t : nat) (c : coro coordinator unit) (l : loop) : loop :=
  match c with
  | Ret s _ =>
      Loop (finish_task t TaskFinished s) (delete t (uploads l))
           (refreshes l) (data l) (http_log l)
  | Raise s e =>
      Loop (finish_task t (end_status e) s) (delete t (uploads l))
           (refreshes l) (data l) (http_log l)
  | Await s _ _ =>
      Loop s (<[t := c]> (uploads l)) (refreshes l) (data l)
           (log_await c (http_log l))
  end.

(** The refresh cycle [i] ran up to [c]; a returned dict becomes [data],
    a failed cycle leaves the previous [data]. *)
Definition settle_refresh (i : nat) (c : coro coordinator pydict) (l : loop)
    : loop :=
  match c with
  | Ret s d =>
      Loop s (uploads l) (delete i (refreshes l)) (Some d) (http_log l)
  | Raise s _ =>
      Loop s (uploads l) (delete i (refreshes l)) (data l) (http_log l)
  | Await s _ _ =>
      Loop s (uploads l) (<[i := c]> (refreshes l)) (data l)
           (log_await c (http_log l))
  end.

Definition set_clock (d : datetime) (s : coordinator) : coordinator :=
  set_hass (Hass d (loop_tasks (hass s))) s.

(** One turn of the loop. An action that does not apply changes nothing. *)
Definition step (l : loop) (a : action) : loop :=
  match a with
  | StateChange ev =>
      Loop (_handle_state_change ev (self l)) (uploads l) (refreshes l)
           (data l) (http_log l)
  | Tick d =>
      Loop (set_clock d (self l)) (uploads l) (refreshes l)
           (data l) (http_log l)
  | StartTask t =>
      if decide (loop_tasks (hass (self l)) !! t = Some TaskPending
                 ∧ uploads l !! t = None)
      then settle_task t (_async_debounced_upload (self l)) l
      else l
  | ResumeTask t ans =>
      match uploads l !! t with
      | Some (Await _ w k) =>
          match typed w ans with
          | Some o => settle_task t (k o (self l)) l
          | None => l
          end
      | _ => l
      end
  | StartRefresh i =>
      if decide (refreshes l !! i = None)
      then settle_refresh i (_async_update_data (self l)) l
      else l
  | ResumeRefresh i ans =>
      match refreshes l !! i with
      | Some (Await _ w k) =>
          match typed w ans with
          | Some o => settle_refresh i (k o (self l)) l
          | None => l
          end
      | _ => l
      end
  end.

Definition exec (l : loop) (acts : list action) : loop := foldl step l acts.

(** The loop right after setup: nothing waits, nothing was sent. *)
Definition start (c : coordinator) : loop := Loop c ∅ ∅ None [].

(** The tasks that are not done. *)
Definition live_tasks (l : loop) : list nat :=
  filter (λ t, task_done (hass (self l)) t = false)
         (seq 0 (length (loop_tasks (hass (self l))))).

End EventLoop.


(** ** Vocabulary for the statements *)

(** The run ended by raising an exception of class [cls]. *)
Definition raises {S A} (o : outcome S A) (cls : exn_class) : Prop :=
  match o with
  | Raised _ e => exn_cls e = cls
  | _ => False
  end.

(** What a coroutine guarantees whatever it is answered and whatever
    happens to the state while it waits: from the state it is started or
    resumed with to the state it next stops with the relation [G] holds,
    and when it returns [Q] holds of the state and the value. *)
Fixpoint guarantees {S A} (G : S -> S -> Prop) (Q : S -> A -> Prop)
    (s0 : S) (c : coro S A) : Prop :=
  match c with
  | Ret s a => G s0 s ∧ Q s a
  | Raise s _ => G s0 s
  | Await s _ k => G s0 s ∧ ∀ o s', guarantees G Q s' (k o s')
  end.

Module ApiSpec.
Import Api.

(** The requests the four operations send from client state [c]. *)
Definition pair_request (c : client) (code : string) : http_request :=
  HttpRequest POST (_api_url c +:+ "/api/ha/pair") (PairingPayload code)
              (_headers c).
Definition readings_request (c : client) (rs : list reading) : http_request :=
  HttpRequest POST (_api_url c +:+ "/api/ha/readings")
              (ReadingsPayload (_instance_id c) rs) (_headers c).
Definition status_request (c : client) : http_request :=
  HttpRequest GET (_api_url c +:+ "/api/ha/status")
              (InstancePayload (_instance_id c)) (_headers c).
Definition unpair_request (c : client) : http_request :=
  HttpRequest POST (_api_url c +:+ "/api/ha/unpair")
              (InstancePayload (_instance_id c)) (_headers c).

(** The error class the spec gives for each kind of network result of an
    authenticated [postReadings] or [getStatus]; [None] for HTTP 200. *)
Definition mapped_error (r : http_result) : option exn_class :=
  match r with
  | Response status _ =>
      if decide (status = 401) then Some AuthenticationError
      else if decide (status = 200) then None
      else Some GreenEnergyApiError
  | TimedOut | ClientError _ => Some CannotConnect
  end.

(** HTTP 400 with [error = invalid_code], or HTTP 401. *)
Definition invalid_code_response (r : http_result) : Prop :=
  match r with
  | Response status body =>
      (status = 400 ∧ dict_get body "error" = PStr "invalid_code")
      ∨ status = 401
  | _ => False
  end.

(** Each of the three authenticated operations, called in client state
    [c], passes its precondition: it stops at its network request. *)
Definition sends_requests (c : client) : Prop :=
  (∀ rs, run (async_post_readings rs c) []
         = (Blocked c, [Awaited (HttpCall (readings_request c rs))]))
  ∧ run (async_get_status c) []
    = (Blocked c, [Awaited (HttpCall (status_request c))])
  ∧ run (async_unpair c) []
    = (Blocked c, [Awaited (HttpCall (unpair_request c))]).

(** Each of the three operations raises [AuthenticationError] on the spot,
    with nothing awaited. *)
Definition refuses_locally (c : client) : Prop :=
  ∀ script,
    (∀ rs, run (async_post_readings rs c) script
           = (Raised c not_authenticated, []))
    ∧ run (async_get_status c) script = (Raised c not_authenticated, [])
    ∧ run (async_unpair c) script = (Raised c not_authenticated, []).

End ApiSpec.

Module CoordinatorSpec.
Import Api Coordinator ApiSpec.

(** The state changes [evs] reach the coordinator one after the other. *)
Definition deliver (evs : list event) (self : coordinator) : coordinator :=
  foldl (λ s ev, _handle_state_change ev s) self evs.

(** The readings these state changes stand for. *)
Definition readings_of (evs : list event) : list reading :=
  omap (λ ev, make_reading (ev_entity_id ev) <$> ev_new_state ev) evs.


(** The reading order claimed for a failed upload: the restored batch
    comes before the readings that arrived during the call. *)
Definition restored_batch_first : Prop :=
  ∀ (s s' : coordinator) (evs : list event) (r : http_result)
    (tr : list awaited),
    _data_buffer s ≠ [] →
    unauthenticated (_api_client s) = false →
    mapped_error r ≠ None →
    run (_async_upload_buffered_data s) [(AnsHttp r, deliver evs)]
    = (Returned s' tt, tr) →
    _data_buffer s' = _data_buffer s ++ readings_of evs.

(** The upload task of [self], if any, has not finished. *)
Definition upload_in_progress (self : coordinator) : Prop :=
  ∃ t, _upload_task self = Some t ∧ task_done (hass self) t = false.

(** The coordinator after a batch went through: timestamp taken, counter
    raised by the size of the batch. *)
Definition uploaded (batch : list reading) (s : coordinator) : coordinator :=
  set_readings_today (_readings_today s + Z.of_nat (length batch))
    (set_last_upload (Some (now s)) s).

(** The coordinator after a batch failed: the batch is put back. *)
Definition restored (batch : list reading) (s : coordinator) : coordinator :=
  set_data_buffer (_data_buffer s ++ batch) s.

(** How [_async_upload_buffered_data] goes on from its network call with
    [batch] in flight, resumed in state [s] with answer [o].  With a body
    that is no JSON object only a 200 response differs from the others:
    a [ContentTypeError] counts as a connection error, a list or scalar
    as a success, and a [JSONDecodeError] is no API error and is not
    caught. *)
Definition upload_resume (batch : list reading) (o : option http_reply)
    (s : coordinator) : coro coordinator unit :=
  match o with
  | None => Raise s (Exn CancelledError PNone)
  | Some (Reply r) =>
      match mapped_error r with
      | None => Ret (uploaded batch s) tt
      | Some _ => Ret (restored batch s) tt
      end
  | Some (BadReply status bad) =>
      if decide (status = 200) then
        match bad with
        | BadContentType _ => Ret (restored batch s) tt
        | BadJson msg => Raise s (Exn JSONDecodeError (PStr msg))
        | NotAnObject => Ret (uploaded batch s) tt
        end
      else Ret (restored batch s) tt
  end.

End CoordinatorSpec.

Module LoopSpec.
Import Api Coordinator EventLoop CoordinatorSpec.

(** The coroutines of the coordinator leave [hass] and the task handle
    alone. *)
Definition same_tasks (s s' : coordinator) : Prop :=
  hass s' = hass s ∧ _upload_task s' = _upload_task s.

(** A snapshot as the coordinator reports it. *)
Definition synced (d : pydict) : Prop :=
  d !! "connected" = Some (PBool true)
  ∧ d !! "sync_status" = Some (PStr "synced").

(** A coroutine held by the loop waits at an await, and however it is
    resumed it keeps the tasks as they are and returns only what [Q]
    allows. *)
Definition waits {A} (Q : coordinator -> A -> Prop)
    (c : coro coordinator A) : Prop :=
  match c with
  | Await _ _ k => ∀ o s', guarantees same_tasks Q s' (k o s')
  | _ => False
  end.

(** The state changes among the turns [acts], and the batches of the
    uploads among the requests [log]. *)
Definition state_changes (acts : list action) : list event :=
  omap (λ a, match a with StateChange ev => Some ev | _ => None end) acts.

Definition uploads_in (log : list http_request) : list (list reading) :=
  omap (λ rq, match rq_payload rq with
              | ReadingsPayload _ rs => Some rs
              | _ => None
              end) log.

(** The debounce window as claimed.  A state change [ev] reaches an idle
    coordinator and makes the task [t], which starts to sleep.  Whatever
    turns [mid] the loop takes while the task sleeps, when the sleep ends
    the uploads sent since [ev] are one, and its batch is the readings of
    all state changes of the window in some order. *)
Definition one_upload_per_window : Prop :=
  ∀ (l0 : loop) (ev : event) (st : ha_state) (mid : list action),
    ev_new_state ev = Some st →
    _data_buffer (self l0) = [] →
    ¬ upload_in_progress (self l0) →
    unauthenticated (_api_client (self l0)) = false →
    let t := length (loop_tasks (hass (self l0))) in
    uploads l0 !! t = None →
    Forall (λ a, ∀ ans, a ≠ ResumeTask t ans) mid →
    let l := exec l0 (StateChange ev :: StartTask t :: mid
                      ++ [ResumeTask t AnsDone]) in
    ∃ batch,
      uploads_in (drop (length (http_log l0)) (http_log l)) = [batch]
      ∧ batch ≡ₚ readings_of (ev :: state_changes mid).

(** What holds of the loop at every turn. *)
Record loop_inv (l : loop) : Prop := LoopInv {
  inv_single : ∀ t, task_done (hass (self l)) t = false →
                    _upload_task (self l) = Some t;
  inv_uploads : ∀ t c, uploads l !! t = Some c → waits (λ _ _, True) c;
  inv_refreshes : ∀ i c, refreshes l !! i = Some c →
                         waits (λ _ d, synced d) c;
  inv_data : ∀ d, data l = Some d → synced d
}.

End LoopSpec.

(** Concrete data for the examples. *)
Module Scenario.
Import Api Coordinator CoordinatorSpec.

Definition noon : datetime := Datetime "2024-01-02" "12:00:00".

Definition paired_client : client :=
  Client "https://green.example" (PStr "t1") (PStr "i1").

(** A freshly set up coordinator with credentials. *)
Definition idle : coordinator :=
  init noon "https://green.example" (PStr "t1") (PStr "i1").

Definition solar_at (t : datetime) (value : string) : event :=
  Event "sensor.solar" (Some (HaState value ∅ t)).
Definition solar (value : string) : event := solar_at noon value.

Definition solar_reading_at (t : datetime) (value : string) : reading :=
  make_reading "sensor.solar" (HaState value ∅ t).
Definition solar_reading (value : string) : reading :=
  solar_reading_at noon value.

(** One reading waits in the buffer. *)
Definition buffering : coordinator :=
  set_data_buffer [solar_reading "1.5"] idle.

(** The same, with five readings counted on the day before. *)
Definition day_after : coordinator :=
  set_readings_today 5
    (set_readings_today_date (Some "2024-01-01") buffering).

(** A run of the loop across midnight.  On 2024-01-01 the first refresh
    dates the counter, five state changes are uploaded by their task; then
    the clock passes midnight and one more state change arrives. *)
Definition evening : datetime := Datetime "2024-01-01" "23:50:00".
Definition morning : datetime := Datetime "2024-01-02" "00:00:02".

Definition fresh : coordinator :=
  init evening "https://green.example" (PStr "t1") (PStr "i1").

Definition ok : answer := AnsHttp (Response 200 ∅).

Definition first_day : list EventLoop.action :=
  [EventLoop.StartRefresh 0; EventLoop.ResumeRefresh 0 ok;
   EventLoop.StateChange (solar_at evening "1.1");
   EventLoop.StateChange (solar_at evening "1.2");
   EventLoop.StateChange (solar_at evening "1.3");
   EventLoop.StateChange (solar_at evening "1.4");
   EventLoop.StateChange (solar_at evening "1.5");
   EventLoop.StartTask 0; EventLoop.ResumeTask 0 AnsDone;
   EventLoop.ResumeTask 0 ok; EventLoop.ResumeTask 0 AnsDone].

Definition past_midnight : list EventLoop.action :=
  [EventLoop.Tick morning; EventLoop.StateChange (solar_at morning "2.5")].

(** The refresh cycle that follows: its flush is answered 200, its status
    call is answered 200. *)
Definition rollover_cycle : list EventLoop.action :=
  [EventLoop.StartRefresh 1; EventLoop.ResumeRefresh 1 ok;
   EventLoop.ResumeRefresh 1 ok].

End Scenario.

(** * More of the source *)

(** ** sensor.py and binary_sensor.py: what the entities show *)

Module Entities.

(** [GreenEnergyRecommendationSensor.native_value] *)
Definition recommendation (data : option pydict) : pyval :=
  match data with
  | None => PStr "No data"
  | Some d => dict_get_default d "recommendation" (PStr "No action needed")
  end.

(** [GreenEnergyRecommendationSensor.extra_state_attributes] *)
Definition recommendation_attributes (data : option pydict) : pydict :=
  match data with
  | None => ∅
  | Some d =>
      <["reason" := dict_get d "recommendation_reason"]>
        (<["valid_until" := dict_get d "recommendation_expires"]> ∅)
  end.

(** [GreenEnergyTariffRateSensor.native_value] *)
Definition tariff_rate (data : option pydict) : pyval :=
  match data with
  | None => PNone
  | Some d => dict_get d "tariff_rate"
  end.

(** [GreenEnergyConnectedSensor.is_on] *)
Definition is_on (data : option pydict) : pyval :=
  match data with
  | None => PBool false
  | Some d => dict_get_default d "connected" (PBool false)
  end.

(** The keys the six sensors pass to [GreenEnergyBaseSensor.__init__], in
    the order [async_setup_entry] creates them. *)
Definition sensor_keys : list string :=
  ["sync_status"; "last_sync"; "readings_today"; "recommendation";
   "savings_today"; "tariff_rate"].

(** [_attr_unique_id] of a sensor with key [key]:
    [f"{config_entry.data[CONF_INSTANCE_ID]}_{key}"]. *)
Definition unique_id (instance_id : pyval) (key : string) : string :=
  py_str instance_id +:+ "_" +:+ key.

(** The unique ids of all entities of one config entry: the six sensors
    and the binary sensor, whose id ends in [_connected]. *)
Definition unique_ids (instance_id : pyval) : list string :=
  (unique_id instance_id <$> sensor_keys)
  ++ [py_str instance_id +:+ "_connected"].

End Entities.

(** ** Construction: [GreenEnergyApiClient.__init__] and
    [GreenEnergyCoordinator.__init__] *)

Module Construction.
Import Api Coordinator.
Import Stdlib.Strings.Ascii.

(** [s.rstrip("/")]: [s] without the slashes at its end. *)
Fixpoint rstrip_slash (s : string) : string :=
  match s with
  | EmptyString => EmptyString
  | String a rest =>
      match rstrip_slash rest with
      | EmptyString =>
          if Ascii.eqb a "/"%char then EmptyString else String a EmptyString
      | r => String a r
      end
  end.

(** [n] slashes. *)
Fixpoint slashes (n : nat) : string :=
  match n with
  | O => EmptyString
  | S n => String "/"%char (slashes n)
  end.

(** [GreenEnergyApiClient.__init__] *)
Definition new_client (api_url : string) (token instance_id : pyval) : client :=
  Client (rstrip_slash api_url) token instance_id.

Definition DEFAULT_API_URL : string := "https://green-energy-topaz.vercel.app".
Definition DEFAULT_SCAN_INTERVAL : Z := 60.

(** The exceptions [GreenEnergyCoordinator.__init__] raises on a config
    entry: [KeyError] from a subscript on a missing key,
    [AttributeError] from [rstrip] on an API URL that is no string,
    [TypeError] and [OverflowError] from [timedelta]. *)
Inductive init_error : Type :=
| InitKeyError (key : string)
| InitAttributeError
| InitTypeError
| InitOverflowError.

(** [timedelta(seconds=v)], as its length in seconds.  A [bool] counts as
    the integer it is; [None] and strings are refused; a [timedelta]
    holds at most 999999999 days to either side. *)
Definition timedelta_seconds (v : pyval) : init_error + Z :=
  let make (z : Z) : init_error + Z :=
    if decide (-86399999913600 ≤ z ≤ 86399999999999)
    then inr z else inl InitOverflowError in
  match v with
  | PInt z => make z
  | PBool b => make (if b then 1 else 0)
  | PNone | PStr _ => inl InitTypeError
  end.

(** [GreenEnergyCoordinator.__init__], up to the call of the base class:
    the fields it sets and the update interval, in seconds, it passes on.
    The arguments of the client are evaluated before the client's
    constructor runs.  const.py does not define [CONF_API_URL]: the key
    is a parameter. *)
Definition coordinator_init (CONF_API_URL : string) (clk : datetime)
    (data options : pydict) : init_error + coordinator * Z :=
  let api_url := dict_get_default data CONF_API_URL (PStr DEFAULT_API_URL) in
  match data !! "api_token" with
  | None => inl (InitKeyError "api_token")
  | Some token =>
      match data !! "instance_id" with
      | None => inl (InitKeyError "instance_id")
      | Some instance_id =>
          match api_url with
          | PStr api_url =>
              let self :=
                Coord (Hass clk []) (new_client api_url token instance_id)
                      [] None None 0 None in
              let scan_interval :=
                dict_get_default options "scan_interval"
                  (PInt DEFAULT_SCAN_INTERVAL) in
              match timedelta_seconds scan_interval with
              | inr update_interval => inr (self, update_interval)
              | inl error => inl error
              end
          | _ => inl InitAttributeError
          end
      end
  end.

(** [monitored_entities] *)
Definition monitored_entities (options : pydict) : list pyval :=
  foldl (λ entities key,
           let entity_id := dict_get options key in
           if truthy entity_id then entities ++ [entity_id] else entities)
        [] ["solar_entity"; "battery_entity"; "grid_entity"].

End Construction.

(** ** config_flow.py: [GreenEnergyConfigFlow] *)

(** A method of an object that only the running coroutine holds, such as
    a client made in the method that uses it: the object [t] travels with
    the coroutine and is dropped when the method is over. *)
Fixpoint local_coro {S T A} (s : S) (c : coro T A) : coro S A :=
  match c with
  | Ret _ a => Ret s a
  | Raise _ e => Raise s e
  | Await t w k => Await s w (fun o s' => local_coro s' (k o t))
  end.

Definition local {S T A} (t : T) (m : M T A) : M S A :=
  fun s => local_coro s (m t).

Module ConfigFlow.
Import Construction.

(** The fields of the flow set in [__init__]. *)
Record flow : Type := Flow {
  _token : pyval;
  _instance_id : pyval;
  _user_email : pyval;
  _api_url : string
}.

Definition set_token (v : pyval) (f : flow) : flow :=
  Flow v (_instance_id f) (_user_email f) (_api_url f).
Definition set_instance_id (v : pyval) (f : flow) : flow :=
  Flow (_token f) v (_user_email f) (_api_url f).

(** [__init__] *)
Definition new_flow : flow := Flow PNone PNone PNone DEFAULT_API_URL.

(** What a step returns: [async_show_form] with its [errors] argument, or
    [async_create_entry]. *)
Inductive flow_result : Type :=
| ShowForm (step_id : string) (errors : option (gmap string string))
| CreateEntry (title : string) (data options : pydict).


(** [async_step_entities].  const.py does not define [CONF_API_URL]: the
    key is a parameter. *)
Definition async_step_entities (CONF_API_URL : string)
    (user_input : option pydict) (self : flow) : flow_result :=
  match user_input with
  | Some user_input =>
      CreateEntry
        ("Green Energy (" +:+ py_str (_user_email self) +:+ ")")
        (<[CONF_API_URL := PStr (_api_url self)]>
        (<["user_email" := _user_email self]>
        (<["instance_id" := _instance_id self]>
        (<["api_token" := _token self]> (∅ : pydict)))))
        (<["scan_interval" :=
             dict_get_default user_input "scan_interval"
               (PInt DEFAULT_SCAN_INTERVAL)]>
        (<["grid_entity" := dict_get user_input "grid_entity"]>
        (<["battery_entity" := dict_get user_input "battery_entity"]>
        (<["solar_entity" := dict_get user_input "solar_entity"]>
           (∅ : pydict)))))
  | None => ShowForm "entities" None
  end.



End ConfigFlow.

(** ** Vocabulary for the further properties *)


(** A script in which nothing else touches the state while the coroutine
    waits. *)
Definition undisturbed {S} (answers : list answer)
    : list (answer * (S -> S)) :=
  map (λ a, (a, id)) answers.


(** The [UpdateFailed] a refresh cycle raises for each result of its
    status call, with the message the [except] clauses build; [None] for a
    200 response. *)
Definition update_failure (r : http_result) : option exn :=
  match r with
  | Response status _ =>
      if decide (status = 401)
      then Some (Exn UpdateFailed
                   (PStr "Authentication failed: Invalid or expired token"))
      else if decide (status = 200) then None
      else Some (Exn UpdateFailed
                   (PStr ("API error: API returned status " +:+ pretty status)))
  | TimedOut =>
      Some (Exn UpdateFailed (PStr "Cannot connect: Request timed out"))
  | ClientError msg =>
      Some (Exn UpdateFailed
              (PStr ("Cannot connect: Connection error: " +:+ msg)))
  end.





(** The network result an await was answered with, when it is a network
    call that was answered. *)
Definition http_answer {R} (w : awaitable R)
    : option R -> option http_reply :=
  match w in awaitable R return option R -> option http_reply with
  | HttpCall _ => λ o, o
  | _ => λ _, None
  end.

(** Whenever the coroutine returns, the await before the return was a
    network call, and [Q] relates its result to the state and the value
    returned; [last] is the result of the latest await so far. *)
Fixpoint returns_after {S A} (Q : http_reply -> S -> A -> Prop)
    (last : option http_reply) (c : coro S A) : Prop :=
  match c with
  | Ret s a => ∃ r, last = Some r ∧ Q r s a
  | Raise _ _ => True
  | Await _ w k => ∀ o s', returns_after Q (http_answer w o) (k o s')
  end.

Module EntitySpec.
Import Coordinator.

(** What the entities show of a snapshot [d], returned in coordinator
    state [s], when the status call was answered with the body
    [status]. *)
Definition shows (status : pydict) (s : coordinator) (d : pydict) : Prop :=
  Entities.recommendation (Some d)
  = dict_get_default status "recommendation" (PStr "No action needed")
  ∧ Entities.recommendation_attributes (Some d)
    = <["reason" := dict_get status "recommendation_reason"]>
        (<["valid_until" := dict_get status "recommendation_expires"]> ∅)
  ∧ Entities.tariff_rate (Some d) = dict_get status "current_rate_pence"
  ∧ Entities.is_on (Some d) = PBool true
  ∧ ReadingsTodaySensor.native_value (Some d) = PInt (_readings_today s).

End EntitySpec.

Module ConfigFlowSpec.



End ConfigFlowSpec.

Module LoopRuleSpec.
Import Api Coordinator EventLoop.

(** A coroutine held by the loop waits at an await, and however it is
    resumed every stretch it runs is a step of [G]. *)
Definition waits_by {A} (G : coordinator -> coordinator -> Prop)
    (c : coro coordinator A) : Prop :=
  match c with
  | Await _ _ k => ∀ o s', guarantees G (λ _ _, True) s' (k o s')
  | _ => False
  end.

(** Every state of the coordinator so far is reached from [s0] by steps of
    [G], and so will be what the waiting coroutines do. *)
Record moves_by (G : coordinator -> coordinator -> Prop)
    (s0 : coordinator) (l : loop) : Prop := MovesBy {
  by_self : G s0 (self l);
  by_uploads : ∀ t c, uploads l !! t = Some c → waits_by G c;
  by_refreshes : ∀ i c, refreshes l !! i = Some c → waits_by G c
}.


(** The client of the coordinator is the same. *)
Definition same_client (s s' : coordinator) : Prop :=
  _api_client s' = _api_client s.

(** The bookkeeping of uploads is not undone: a counter that is not
    negative stays so, a counter date and a timestamp of the last upload,
    once set, stay set. *)
Definition bookkeeping_kept (s s' : coordinator) : Prop :=
  (0 ≤ _readings_today s → 0 ≤ _readings_today s')
  ∧ (is_Some (_readings_today_date s) → is_Some (_readings_today_date s'))
  ∧ (is_Some (_last_upload s) → is_Some (_last_upload s')).

End LoopRuleSpec.

(** * Properties *)

(** Unfolds the coroutine combinators and runs the coroutine as far as its
    next match on something unknown. *)
Ltac coro_simpl :=
  repeat (progress
    (unfold mbind, mret, coro_bind, coro_ret, bind, ret, gets, modify, raise,
       try_except, await, zoom, Api.session_request, json, json_get,
       json_get_default, json_subscript, Coordinator.on_client;
     cbn [bind_coro catch_coro zoom_coro run id typed final fst snd])).

(** ** Reasoning with [guarantees] *)

Section Guarantees.
Context {S : Type} (G : S -> S -> Prop) `{!PreOrder G}.

Lemma guarantees_from {A} (Q : S -> A -> Prop) s0 s1 (c : coro S A) :
  G s0 s1 → guarantees G Q s1 c → guarantees G Q s0 c.
Proof.
  intros H01. destruct c; cbn; intros H.
  - destruct H as [H ?]. split; [by etrans|done].
  - by etrans.
  - destruct H as [H ?]. split; [by etrans|done].
Qed.

Lemma guarantees_bind {A B} (QA : S -> A -> Prop) (QB : S -> B -> Prop)
    s0 (c : coro S A) (f : A -> M S B) :
  guarantees G QA s0 c →
  (∀ a s, QA s a → guarantees G QB s (f a s)) →
  guarantees G QB s0 (bind_coro c f).
Proof.
  intros Hc Hf. revert s0 Hc.
  induction c as [s a|s e|s R w k IH]; cbn; intros s0.
  - intros [HG HQ]. eapply guarantees_from; [exact HG|]. by apply Hf.
  - done.
  - intros [HG Hk]. split; [done|]. intros o s'. apply IH, Hk.
Qed.

Lemma guarantees_catch {A} (Q : S -> A -> Prop) s0 (c : coro S A)
    (h : exn -> option (M S A)) :
  guarantees G Q s0 c →
  (∀ e m s, h e = Some m → guarantees G Q s (m s)) →
  guarantees G Q s0 (catch_coro c h).
Proof.
  intros Hc Hh. revert s0 Hc.
  induction c as [s a|s e|s R w k IH]; cbn; intros s0.
  - done.
  - intros HG. destruct (h e) as [m|] eqn:He; [|done].
    eapply guarantees_from; [exact HG|]. by eapply Hh.
  - intros [HG Hk]. split; [done|]. intros o s'. apply IH, Hk.
Qed.

(** What holds of every run that returns. *)
Lemma guarantees_run {A} (Q : S -> A -> Prop) s0 (c : coro S A)
    script s a tr :
  guarantees G Q s0 c → run c script = (Returned s a, tr) → Q s a.
Proof.
  revert s0 script tr.
  induction c as [s1 a1|s1 e|s1 R w k IH]; cbn; intros s0 script tr.
  - intros [_ HQ] [= <- <-]. done.
  - done.
  - intros [_ Hk]. destruct script as [|[ans f] rest]; [done|].
    destruct (typed w ans) as [o|]; [|done].
    destruct (run (k o (f s1)) rest) as [out tr'] eqn:Hrun.
    intros [= -> <-]. eapply IH; [apply Hk|exact Hrun].
Qed.
End Guarantees.

(** A run of [c] followed by [f] is the run of [c], then the run of [f]
    on the rest of the script. *)
Lemma run_bind {S A B} (c : coro S A) (f : A -> M S B) script s1 a tr1 :
  run c script = (Returned s1 a, tr1) →
  run (bind_coro c f) script
  = (let '(out, tr2) := run (f a s1) (drop (length tr1) script) in
     (out, tr1 ++ tr2)).
Proof.
  revert script tr1.
  induction c as [s a'|s e|s R w k IH]; cbn; intros script tr1.
  - intros ?; simplify_eq. cbn. rewrite drop_0.
    by destruct (run (f a s1) script).
  - done.
  - destruct script as [|[ans g] rest]; [done|].
    destruct (typed w ans) as [o|]; [|done].
    destruct (run (k o (g s)) rest) as [out tr'] eqn:Hrun.
    intros ?; simplify_eq. rewrite (IH _ _ _ _ Hrun). cbn.
    by destruct (run (f a s1) (drop (length tr') rest)).
Qed.

(** ** The API client *)

Module ApiFacts.
Import Api ApiSpec.

Lemma unauthenticated_refuses c :
  unauthenticated c = true → refuses_locally c.
Proof.
  intros H script. repeat split; intros;
    unfold async_post_readings, async_get_status, async_unpair;
    coro_simpl; rewrite H; by coro_simpl.
Qed.

Lemma authenticated_sends c :
  unauthenticated c = false → sends_requests c.
Proof.
  intros H. repeat split; intros;
    unfold async_post_readings, async_get_status, async_unpair;
    coro_simpl; rewrite H; by coro_simpl.
Qed.

Lemma post_readings_authenticated c rs r f rest :
  unauthenticated c = false →
  ∃ out, run (async_post_readings rs c) ((AnsHttp r, f) :: rest)
         = (out, [Awaited (HttpCall (readings_request c rs))])
         ∧ match mapped_error r with
           | Some cls => raises out cls ∧ final out = f c
           | None => ∃ body, r = Response 200 body
                             ∧ out = Returned (f c) (JsonObject body)
           end.
Proof.
  intros H. unfold async_post_readings. coro_simpl. rewrite H.
  coro_simpl. destruct r as [status body| |msg]; coro_simpl; cbn.
  - repeat case_decide; try lia; coro_simpl; eexists; (split; [done|]);
      cbn; subst; eauto.
  - eexists; split; [done|]. by cbn.
  - eexists; split; [done|]. by cbn.
Qed.

Lemma get_status_authenticated c r f rest :
  unauthenticated c = false →
  ∃ out, run (async_get_status c) ((AnsHttp r, f) :: rest)
         = (out, [Awaited (HttpCall (status_request c))])
         ∧ match mapped_error r with
           | Some cls => raises out cls ∧ final out = f c
           | None => ∃ body, r = Response 200 body
                             ∧ out = Returned (f c) (JsonObject body)
           end.
Proof.
  intros H. unfold async_get_status. coro_simpl. rewrite H.
  coro_simpl. destruct r as [status body| |msg]; coro_simpl; cbn.
  - repeat case_decide; try lia; coro_simpl; eexists; (split; [done|]);
      cbn; subst; eauto.
  - eexists; split; [done|]. by cbn.
  - eexists; split; [done|]. by cbn.
Qed.

(** C8. [postReadings] and [getStatus] have the same precondition and the
    same error mapping.  With the token or the instance id unset (the code
    tests [not self._token or not self._instance_id]) both raise
    [AuthenticationError] at once and await nothing, so no request goes
    out.  With both set each sends exactly its one request, and the
    network result [r] decides the end: HTTP 401 raises
    [AuthenticationError], a timeout or transport error raises
    [CannotConnect], any other status but 200 raises the plain
    [GreenEnergyApiError], and a 200 response returns its body. *)
Theorem authenticated_calls_error_mapping
    (c : client) (rs : list reading) (r : http_result)
    (f : client -> client) (rest : list (answer * (client -> client))) :
  if unauthenticated c
  then ∀ script,
         run (async_post_readings rs c) script
         = (Raised c (Exn AuthenticationError (PStr "Not authenticated")), [])
         ∧ run (async_get_status c) script
           = (Raised c (Exn AuthenticationError (PStr "Not authenticated")), [])
  else ∃ post get,
         run (async_post_readings rs c) ((AnsHttp r, f) :: rest)
         = (post, [Awaited (HttpCall (readings_request c rs))])
         ∧ run (async_get_status c) ((AnsHttp r, f) :: rest)
           = (get, [Awaited (HttpCall (status_request c))])
         ∧ match r with
           | Response status body =>
               if decide (status = 401)
               then raises post AuthenticationError
                    ∧ raises get AuthenticationError
               else if decide (status = 200)
               then post = Returned (f c) (JsonObject body)
                    ∧ get = Returned (f c) (JsonObject body)
               else raises post GreenEnergyApiError
                    ∧ raises get GreenEnergyApiError
           | TimedOut | ClientError _ =>
               raises post CannotConnect ∧ raises get CannotConnect
           end.
Proof.
  destruct (unauthenticated c) eqn:H.
  - intros script. destruct (unauthenticated_refuses c H script) as (Hp & Hg & _).
    split; [apply Hp|apply Hg].
  - destruct (post_readings_authenticated c rs r f rest H) as (post & Hp & Hpe).
    destruct (get_status_authenticated c r f rest H) as (get & Hg & Hge).
    exists post, get. split; [done|]. split; [done|].
    destruct r as [status body| |msg]; cbn in *.
    + repeat case_decide; try lia; cbn in *.
      * split; [apply Hpe|apply Hge].
      * destruct Hpe as (? & ? & ->), Hge as (? & ? & ->). by simplify_eq.
      * split; [apply Hpe|apply Hge].
    + split; [apply Hpe|apply Hge].
    + split; [apply Hpe|apply Hge].
Qed.

(** C7. [pair] always sends its one request, whatever the client holds.
    It raises [InvalidPairingCode] exactly on HTTP 400 with
    [error = invalid_code] or on HTTP 401; [CannotConnect] on a timeout or
    transport error; the plain [GreenEnergyApiError] on any other status
    but 200 and on a 400 with another error payload.  On a 200 response
    that carries both keys it returns the body and has stored the returned
    token and instance id in the client; later calls on that client then
    pass the authentication test, which asks that both stored values be
    non-empty. *)
Theorem pair_outcomes
    (c : client) (code : string) (r : http_result)
    (f : client -> client) (rest : list (answer * (client -> client))) :
  ∃ out,
    run (async_pair code c) ((AnsHttp r, f) :: rest)
    = (out, [Awaited (HttpCall (pair_request c code))])
    ∧ (raises out InvalidPairingCode ↔ invalid_code_response r)
    ∧ match r with
      | TimedOut | ClientError _ => raises out CannotConnect
      | Response status body =>
          if decide (status = 400) then
            if decide (dict_get body "error" = PStr "invalid_code")
            then raises out InvalidPairingCode
            else raises out GreenEnergyApiError
          else if decide (status = 401) then raises out InvalidPairingCode
          else if decide (status = 200) then
            match body !! "api_token", body !! "instance_id" with
            | Some token, Some instance_id =>
                out = Returned
                        (Client (_api_url (f c)) token instance_id)
                        (JsonObject body)
                ∧ if truthy token && truthy instance_id
                  then sends_requests (final out)
                  else refuses_locally (final out)
            | _, _ => raises out KeyError
            end
          else raises out GreenEnergyApiError
      end.
Proof.
  assert (∀ P Q : Prop, (P → False) → (Q → False) → (P ↔ Q)) as Hno
    by tauto.
  unfold async_pair. coro_simpl.
  destruct r as [status body| |msg]; coro_simpl; cbn;
    [|eexists; (split; [done|]); cbn; (split; [by apply Hno|done])..].
  destruct (decide (status = 400)) as [->|H400];
    [|destruct (decide (status = 401)) as [->|H401];
      [|destruct (decide (status = 200)) as [->|H200]]];
    repeat case_decide; try lia; try done; coro_simpl.
  - eexists; split; [done|]. cbn. split; [|done]. split; auto.
  - eexists; split; [done|]. cbn. split; [|done].
    apply Hno; [done|]. intros [[_ ?]|?]; [done|lia].
  - eexists; split; [done|]. cbn. split; [|done]. split; auto.
  - destruct (body !! "api_token") as [token|] eqn:Ht; coro_simpl;
      [destruct (body !! "instance_id") as [iid|] eqn:Hi; coro_simpl|].
    + eexists; split; [done|]. cbn.
      split; [apply Hno; [done|intros [[? _]|?]; lia]|].
      split; [done|].
      destruct (truthy token && truthy iid) eqn:Hcred.
      * apply authenticated_sends. unfold unauthenticated; cbn.
        apply andb_true_iff in Hcred as [-> ->]. done.
      * apply unauthenticated_refuses. unfold unauthenticated; cbn.
        apply andb_false_iff in Hcred as [-> | ->]; [done|].
        by rewrite orb_true_r.
    + eexists; split; [done|]. cbn.
      split; [apply Hno; [done|intros [[? _]|?]; lia]|]. done.
    + eexists; split; [done|]. cbn.
      split; [apply Hno; [done|intros [[? _]|?]; lia]|].
      by destruct (body !! "instance_id").
  - eexists; split; [done|]. cbn. split; [|done].
    apply Hno; [done|]. intros [[? _]|?]; lia.
Qed.

(** [unpair] never writes to the client. *)
Lemma unpair_writes_nothing c :
  guarantees eq (λ _ _, True) c (async_unpair c).
Proof.
  unfold async_unpair. coro_simpl. destruct (unauthenticated c); coro_simpl;
    cbn; [done|].
  split; [done|]. intros [[[status body| |msg]|status bad]|] s';
    coro_simpl; cbn; try done; case_decide; by coro_simpl.
Qed.

(** C10. When [unpair] returns [True], with nothing else writing to the
    client while it waited, the answer was an HTTP 200 response (with a
    body of any kind: [unpair] does not read it), the client is exactly as
    it was, its token and instance id are not [None], and each of
    [postReadings], [getStatus] and [unpair] called next passes the
    authentication test and stops at its network request. *)
Theorem unpair_keeps_credentials
    (c c' : client) (a : answer) (rest : list (answer * (client -> client)))
    (tr : list awaited) :
  run (async_unpair c) ((a, id) :: rest) = (Returned c' true, tr) →
  ((∃ body, a = AnsHttp (Response 200 body))
   ∨ (∃ bad, a = AnsBadBody 200 bad))
  ∧ c' = c
  ∧ _token c' ≠ PNone ∧ _instance_id c' ≠ PNone
  ∧ sends_requests c'.
Proof.
  intros Hrun.
  destruct (unauthenticated c) eqn:Hauth.
  { destruct (unauthenticated_refuses c Hauth ((a, id) :: rest))
      as (_ & _ & Hu). congruence. }
  assert (c' = c ∧ ((∃ body, a = AnsHttp (Response 200 body))
                    ∨ (∃ bad, a = AnsBadBody 200 bad))) as [-> Ha].
  { revert Hrun. unfold async_unpair. coro_simpl. rewrite Hauth. coro_simpl.
    destruct a as [[status body| |msg]|status bad| |]; coro_simpl; try done;
      (case_decide; coro_simpl; [done|]);
      intros [= <- Hb _]; apply bool_decide_eq_true in Hb; subst; eauto. }
  split; [done|]. split; [done|].
  unfold unauthenticated in Hauth. apply orb_false_iff in Hauth as [Ht Hi].
  split; [by destruct (_token c)|].
  split; [by destruct (_instance_id c)|].
  apply authenticated_sends. unfold unauthenticated. by rewrite Ht, Hi.
Qed.

Lemma unpair_keeps_credentials_witness :
  sends_requests Scenario.paired_client.
Proof.
  eapply (unpair_keeps_credentials Scenario.paired_client
            Scenario.paired_client (AnsHttp (Response 200 ∅)) []).
  reflexivity.
Defined.

End ApiFacts.

(** ** The coordinator: one flush of the buffer *)

Module UploadFacts.
Import Api Coordinator ApiSpec CoordinatorSpec ApiFacts.

Lemma upload_empty s :
  _data_buffer s = [] → _async_upload_buffered_data s = Ret s tt.
Proof.
  intros H. unfold _async_upload_buffered_data. coro_simpl. by rewrite H.
Qed.

(** Without credentials the call fails on the spot and the batch goes
    straight back: the flush changes nothing and awaits nothing. *)
Lemma upload_unauthenticated s :
  _data_buffer s ≠ [] → unauthenticated (_api_client s) = true →
  _async_upload_buffered_data s = Ret s tt.
Proof.
  intros Hb Ha. unfold _async_upload_buffered_data. coro_simpl.
  rewrite bool_decide_eq_false_2 by done. coro_simpl.
  unfold async_post_readings. coro_simpl. cbn [_api_client set_data_buffer].
  rewrite Ha. coro_simpl. cbn. by destruct s.
Qed.

(** With credentials the flush stops at its request, the buffer cleared
    and the whole former buffer in the payload. *)
Lemma upload_authenticated s :
  _data_buffer s ≠ [] → unauthenticated (_api_client s) = false →
  ∃ k, _async_upload_buffered_data s
       = Await (set_data_buffer [] s)
           (HttpCall (readings_request (_api_client s) (_data_buffer s))) k
       ∧ ∀ o s1, k o s1 = upload_resume (_data_buffer s) o s1.
Proof.
  intros Hb Ha. unfold _async_upload_buffered_data. coro_simpl.
  rewrite bool_decide_eq_false_2 by done. coro_simpl.
  unfold async_post_readings. coro_simpl. cbn [_api_client set_data_buffer].
  rewrite Ha. coro_simpl. eexists. split.
  { destruct s; reflexivity. }
  intros [[[status body| |msg]|status bad]|] s1; coro_simpl; cbn;
    try by destruct s1.
  - repeat case_decide; try lia; coro_simpl; cbn; by destruct s1.
  - repeat case_decide; try lia; coro_simpl; cbn; try by destruct s1.
    destruct bad; coro_simpl; cbn; by destruct s1.
Qed.

Lemma upload_in_flight s :
  _data_buffer s ≠ [] → unauthenticated (_api_client s) = false →
  run (_async_upload_buffered_data s) []
  = (Blocked (set_data_buffer [] s),
     [Awaited (HttpCall (readings_request (_api_client s) (_data_buffer s)))]).
Proof.
  intros Hb Ha. destruct (upload_authenticated s Hb Ha) as (k & -> & _).
  done.
Qed.

Lemma upload_run s r f rest :
  _data_buffer s ≠ [] → unauthenticated (_api_client s) = false →
  run (_async_upload_buffered_data s) ((AnsHttp r, f) :: rest)
  = (Returned
       (let s1 := f (set_data_buffer [] s) in
        if decide (mapped_error r = None)
        then uploaded (_data_buffer s) s1
        else restored (_data_buffer s) s1) tt,
     [Awaited (HttpCall (readings_request (_api_client s) (_data_buffer s)))]).
Proof.
  intros Hb Ha. destruct (upload_authenticated s Hb Ha) as (k & -> & Hk).
  coro_simpl. rewrite Hk. unfold upload_resume.
  destruct (mapped_error r); by case_decide.
Qed.

(** State changes touch the buffer only by appending their readings, and
    leave the client and the counters alone. *)
Lemma schedule_upload_fields s :
  _data_buffer (_schedule_upload s) = _data_buffer s
  ∧ _api_client (_schedule_upload s) = _api_client s
  ∧ _last_upload (_schedule_upload s) = _last_upload s
  ∧ _readings_today (_schedule_upload s) = _readings_today s
  ∧ _readings_today_date (_schedule_upload s) = _readings_today_date s
  ∧ clock (hass (_schedule_upload s)) = clock (hass s).
Proof.
  unfold _schedule_upload. destruct (_upload_task s) as [t|]; [|done].
  by destruct (task_done (hass s) t).
Qed.

Lemma readings_of_cons ev evs :
  readings_of (ev :: evs)
  = match ev_new_state ev with
    | Some st => make_reading (ev_entity_id ev) st :: readings_of evs
    | None => readings_of evs
    end.
Proof. unfold readings_of. cbn. by destruct (ev_new_state ev). Qed.

Lemma readings_of_app evs1 evs2 :
  readings_of (evs1 ++ evs2) = readings_of evs1 ++ readings_of evs2.
Proof.
  induction evs1 as [|ev evs1 IH]; [done|].
  cbn [app]. rewrite !readings_of_cons, IH. by destruct (ev_new_state ev).
Qed.

Lemma deliver_fields evs s :
  _data_buffer (deliver evs s) = _data_buffer s ++ readings_of evs
  ∧ _api_client (deliver evs s) = _api_client s
  ∧ _last_upload (deliver evs s) = _last_upload s
  ∧ _readings_today (deliver evs s) = _readings_today s
  ∧ _readings_today_date (deliver evs s) = _readings_today_date s
  ∧ clock (hass (deliver evs s)) = clock (hass s).
Proof.
  revert s. induction evs as [|ev evs IH]; intros s.
  { cbn. by rewrite app_nil_r. }
  rewrite readings_of_cons.
  change (deliver (ev :: evs) s) with (deliver evs (_handle_state_change ev s)).
  destruct (IH (_handle_state_change ev s)) as (-> & -> & -> & -> & -> & ->).
  unfold _handle_state_change.
  destruct (ev_new_state ev) as [st|]; [|done].
  destruct (schedule_upload_fields
              (set_data_buffer
                 (_data_buffer s ++ [make_reading (ev_entity_id ev) st]) s))
    as (-> & -> & -> & -> & -> & ->).
  cbn. by rewrite <- app_assoc.
Qed.

(** C2. One flush of a non-empty buffer.  Without credentials
    [postReadings] raises [AuthenticationError] on the spot and the flush
    leaves the coordinator as it was, batch in the buffer.  With
    credentials the batch goes out in one request; [s1] is the coordinator
    as the rest of the program left it when the answer [r] arrives, and
    [post] is how [postReadings] itself ends on [r].  If it returns, the
    counter is [s1]'s plus the size of the batch and the timestamp is the
    time of the answer.  If it raises, the exception is an API error,
    counter and timestamp are [s1]'s, the batch is back in the buffer, and
    the next flush sends a request that carries it. *)
Theorem upload_round_trip
    (s : coordinator) (r : http_result) (f : coordinator -> coordinator)
    (rest : list (answer * (coordinator -> coordinator))) :
  _data_buffer s ≠ [] →
  let batch := _data_buffer s in
  let s1 := f (set_data_buffer [] s) in
  if unauthenticated (_api_client s)
  then ∀ script, run (_async_upload_buffered_data s) script
                 = (Returned s tt, [])
  else ∃ s' post tr,
    run (_async_upload_buffered_data s) ((AnsHttp r, f) :: rest)
    = (Returned s' tt,
       [Awaited (HttpCall (readings_request (_api_client s) batch))])
    ∧ run (async_post_readings batch (_api_client s)) [(AnsHttp r, id)]
      = (post, tr)
    ∧ match post with
      | Returned _ _ =>
          _readings_today s' = _readings_today s1 + Z.of_nat (length batch)
          ∧ _last_upload s' = Some (now s1)
          ∧ _data_buffer s' = _data_buffer s1
      | Raised _ e =>
          is_api_error e = true
          ∧ _readings_today s' = _readings_today s1
          ∧ _last_upload s' = _last_upload s1
          ∧ _data_buffer s' = _data_buffer s1 ++ batch
          ∧ (unauthenticated (_api_client s') = false →
             ∃ s'', run (_async_upload_buffered_data s') []
                    = (Blocked s'',
                       [Awaited (HttpCall
                          (readings_request (_api_client s')
                             (_data_buffer s1 ++ batch)))]))
      | Blocked _ => False
      end.
Proof.
  intros Hb batch s1. destruct (unauthenticated (_api_client s)) eqn:Ha.
  { intros script. by rewrite upload_unauthenticated. }
  destruct (post_readings_authenticated (_api_client s) batch r id [] Ha)
    as (post & Hpost & Hend).
  eexists _, post, _. split; [by apply upload_run|]. split; [exact Hpost|].
  fold s1. destruct (mapped_error r) as [cls|] eqn:Hr.
  - rewrite decide_False by done. destruct Hend as [Hraise _].
    destruct post as [| c e |]; try done. cbn in Hraise.
    split. { unfold is_api_error. rewrite Hraise. revert Hr.
             destruct r; cbn; repeat case_decide; by intros [= <-]. }
    split; [done|]. split; [done|]. split; [done|].
    intros Ha'. eexists. rewrite upload_in_flight; [done| |done].
    cbn. intros [_ ?]%app_eq_nil. done.
  - rewrite decide_True by done. destruct Hend as (body & _ & ->). done.
Qed.

Lemma upload_round_trip_witness :
  ∃ s', run (_async_upload_buffered_data Scenario.buffering)
            [(AnsHttp (Response 200 ∅), id)]
        = (Returned s' tt,
           [Awaited (HttpCall (readings_request Scenario.paired_client
                                 [Scenario.solar_reading "1.5"]))])
        ∧ _readings_today s' = 1.
Proof.
  destruct (upload_round_trip Scenario.buffering (Response 200 ∅) id [])
    as (s' & post & tr & Hrun & Hpost & Hend); [done|].
  exists s'. split; [exact Hrun|].
  injection Hpost as <- _. exact (proj1 Hend).
Defined.

(** A flush whose task is cancelled while the request is in flight ends
    in [CancelledError], which is no API error: the batch is neither sent
    again nor put back.  This is the teardown case, where the loss of the
    last batch is accepted. *)
Lemma cancelled_flush_drops_batch s f rest :
  _data_buffer s ≠ [] → unauthenticated (_api_client s) = false →
  run (_async_upload_buffered_data s) ((AnsCancel, f) :: rest)
  = (Raised (f (set_data_buffer [] s)) (Exn CancelledError PNone),
     [Awaited (HttpCall (readings_request (_api_client s) (_data_buffer s)))]).
Proof.
  intros Hb Ha. destruct (upload_authenticated s Hb Ha) as (k & -> & Hk).
  coro_simpl. by rewrite Hk.
Qed.



(** C6, as the code has it.  When an upload fails, the batch is put back
    with [extend]: it comes after the readings that arrived during the
    failed call, so the newer readings precede the retried batch. *)
Theorem restored_batch_last
    (s : coordinator) (evs : list event) (r : http_result)
    (rest : list (answer * (coordinator -> coordinator))) :
  _data_buffer s ≠ [] →
  unauthenticated (_api_client s) = false →
  mapped_error r ≠ None →
  ∃ s', run (_async_upload_buffered_data s) ((AnsHttp r, deliver evs) :: rest)
        = (Returned s' tt,
           [Awaited (HttpCall (readings_request (_api_client s)
                                 (_data_buffer s)))])
        ∧ _data_buffer s' = readings_of evs ++ _data_buffer s.
Proof.
  intros Hb Ha Hr. eexists. split; [by apply upload_run|].
  rewrite decide_False by done. cbn.
  by destruct (deliver_fields evs (set_data_buffer [] s)) as (-> & _).
Qed.

Lemma restored_batch_last_witness :
  ∃ s', run (_async_upload_buffered_data Scenario.buffering)
            [(AnsHttp (Response 500 ∅), deliver [Scenario.solar "2.5"])]
        = (Returned s' tt,
           [Awaited (HttpCall (readings_request Scenario.paired_client
                                 [Scenario.solar_reading "1.5"]))])
        ∧ _data_buffer s'
          = [Scenario.solar_reading "2.5"; Scenario.solar_reading "1.5"].
Proof.
  apply (restored_batch_last Scenario.buffering [Scenario.solar "2.5"]
           (Response 500 ∅) []); [done|reflexivity|done].
Defined.

(** C6, as stated, fails: with one reading in flight and one arriving
    during a call answered with HTTP 500, the buffer ends as the new
    reading followed by the restored one. *)
Lemma restored_batch_first_fails : ¬ restored_batch_first.
Proof.
  intros Hclaim.
  specialize (Hclaim Scenario.buffering
    (restored [Scenario.solar_reading "1.5"]
       (deliver [Scenario.solar "2.5"]
          (set_data_buffer [] Scenario.buffering)))
    [Scenario.solar "2.5"] (Response 500 ∅)
    [Awaited (HttpCall (readings_request Scenario.paired_client
                          [Scenario.solar_reading "1.5"]))]).
  discriminate Hclaim; [done|reflexivity|done|].
  by rewrite upload_run.
Qed.

End UploadFacts.

(** ** The coordinator: a refresh cycle *)

Module UpdateFacts.
Import Api Coordinator ApiSpec CoordinatorSpec ApiFacts UploadFacts.

#[local] Instance anything_preorder {S} : PreOrder (λ _ _ : S, True).
Proof. by split. Qed.

Lemma guarantees_anything {S A} (c : coro S A) s0 :
  guarantees (λ _ _, True) (λ _ _, True) s0 c.
Proof.
  revert s0. induction c as [s a|s e|s R w k IH]; cbn; intros s0; auto.
Qed.

(** [build_snapshot] never awaits; this is what it returns and how it
    leaves the counter. *)
Lemma build_snapshot_spec (status : pydict) s2 :
  ∃ s' d,
    build_snapshot (JsonObject status) s2 = Ret s' d
    ∧ d !! "connected" = Some (PBool true)
    ∧ d !! "sync_status" = Some (PStr "synced")
    ∧ d !! "readings_today" = Some (PInt (_readings_today s'))
    ∧ _readings_today_date s' = Some (dt_date (now s2))
    ∧ _readings_today s'
      = (if decide (_readings_today_date s2 = Some (dt_date (now s2)))
         then _readings_today s2 else 0).
Proof.
  unfold build_snapshot. coro_simpl.
  destruct (decide (_readings_today_date s2 = Some (dt_date (now s2))))
    as [Heq|Hne]; case_decide; try done; coro_simpl;
    eexists _, _; (split; [reflexivity|]); cbn; repeat split; done.
Qed.

Lemma set_api_client_same s : set_api_client (_api_client s) s = s.
Proof. by destruct s. Qed.

(** The cycle from the flush on, when [getStatus] is answered with a 200
    response carrying [status] while the coordinator became [f s1]. *)
Lemma fetch_and_build s1 (status : pydict) f rest s' d :
  unauthenticated (_api_client s1) = false →
  build_snapshot (JsonObject status) (f s1) = Ret s' d →
  run (bind_coro
         (catch_coro
            (zoom_coro _api_client set_api_client s1
               (async_get_status (_api_client s1)))
            except_update_failed)
         (λ status, build_snapshot status))
      ((AnsHttp (Response 200 status), f) :: rest)
  = (Returned s' d, [Awaited (HttpCall (status_request (_api_client s1)))]).
Proof.
  intros Ha Hb. unfold async_get_status. coro_simpl. rewrite Ha. coro_simpl.
  repeat case_decide; try done. coro_simpl.
  rewrite !set_api_client_same, Hb. done.
Qed.

(** C5. A refresh cycle that comes to build its snapshot: the flush at its
    start has ended, in state [s1] after [tr1], and [getStatus] is
    answered with a 200 response while the rest of the program turned
    [s1] into [s2].  If the counter date stored in [s2] is not the
    date the clock of [s2] shows, the cycle returns a dict that reports
    [readings_today] as 0, and the counter itself is 0 and dated today. *)
Theorem day_rollover_resets
    (s s1 : coordinator) (script rest : list (answer * (coordinator -> coordinator)))
    (tr1 : list awaited) (status : pydict) (f : coordinator -> coordinator) :
  run (_async_upload_buffered_data s) script = (Returned s1 tt, tr1) →
  drop (length tr1) script = (AnsHttp (Response 200 status), f) :: rest →
  unauthenticated (_api_client s1) = false →
  let s2 := f s1 in
  _readings_today_date s2 ≠ Some (dt_date (now s2)) →
  ∃ s' d,
    run (_async_update_data s) script
    = (Returned s' d,
       tr1 ++ [Awaited (HttpCall (status_request (_api_client s1)))])
    ∧ d !! "readings_today" = Some (PInt 0)
    ∧ _readings_today s' = 0
    ∧ _readings_today_date s' = Some (dt_date (now s2)).
Proof.
  intros Hflush Hscript Ha s2 Hdate.
  destruct (build_snapshot_spec status s2)
    as (s' & d & Hb & _ & _ & Hd & Hdate' & Hcount).
  rewrite decide_False in Hcount by done.
  exists s', d. split; [|by rewrite Hd, Hcount].
  unfold _async_update_data. coro_simpl.
  rewrite (run_bind _ _ _ _ _ _ Hflush), Hscript.
  coro_simpl. by rewrite (fetch_and_build s1 status f rest s' d Ha Hb).
Qed.

Lemma day_rollover_resets_witness :
  ∃ s' d,
    run (_async_update_data Scenario.day_after)
        [(AnsHttp (Response 500 ∅), id); (AnsHttp (Response 200 ∅), id)]
    = (Returned s' d,
       [Awaited (HttpCall (readings_request Scenario.paired_client
                             [Scenario.solar_reading "1.5"]))]
       ++ [Awaited (HttpCall (status_request Scenario.paired_client))])
    ∧ d !! "readings_today" = Some (PInt 0)
    ∧ _readings_today s' = 0
    ∧ _readings_today_date s' = Some "2024-01-02".
Proof.
  apply (day_rollover_resets Scenario.day_after
           (restored [Scenario.solar_reading "1.5"]
              (set_data_buffer [] Scenario.day_after))
           [(AnsHttp (Response 500 ∅), id); (AnsHttp (Response 200 ∅), id)]
           []
           [Awaited (HttpCall (readings_request Scenario.paired_client
                                 [Scenario.solar_reading "1.5"]))]
           ∅ id);
    [reflexivity|reflexivity|reflexivity|done].
Defined.

End UpdateFacts.

(** ** The event loop *)

Module LoopFacts.
Import Api Coordinator EventLoop ApiSpec CoordinatorSpec LoopSpec.
Import ApiFacts UploadFacts UpdateFacts.

#[local] Instance same_tasks_preorder : PreOrder same_tasks.
Proof.
  split.
  - by intros s.
  - intros s1 s2 s3 [H1 H2] [H3 H4]. split; congruence.
Qed.

(** A method of the client, run inside the coordinator, writes the client
    field only. *)
Lemma on_client_frames {A} (c : coro client A) s :
  guarantees same_tasks (λ _ _, True) s
    (zoom_coro _api_client set_api_client s c).
Proof.
  revert s. induction c as [t a|t e|t R w k IH]; cbn; intros s.
  - done.
  - done.
  - split; [done|]. intros o s'. apply IH.
Qed.

Lemma upload_frames s :
  guarantees same_tasks (λ _ _, True) s (_async_upload_buffered_data s).
Proof.
  unfold _async_upload_buffered_data. coro_simpl.
  case_bool_decide; [done|]. coro_simpl.
  apply (guarantees_from _ _ _ (set_data_buffer [] s)); [done|].
  apply guarantees_catch; [apply _| |].
  - eapply guarantees_bind; [apply _|apply on_client_frames|].
    intros _ s1 _. by cbn.
  - intros e m s1. destruct (is_api_error e); [|done].
    intros [= <-]. by cbn.
Qed.

Lemma debounced_upload_frames s :
  guarantees same_tasks (λ _ _, True) s (_async_debounced_upload s).
Proof.
  unfold _async_debounced_upload. coro_simpl. cbn. split; [done|].
  intros [[]|] s1; coro_simpl; [|done].
  eapply guarantees_bind; [apply _|apply upload_frames|].
  intros _ s2 _. cbn. split; [done|]. by intros [[]|] s3.
Qed.

Lemma update_data_frames s :
  guarantees same_tasks (λ _ d, synced d) s (_async_update_data s).
Proof.
  unfold _async_update_data. coro_simpl.
  eapply guarantees_bind; [apply _|apply upload_frames|].
  intros _ s1 _.
  eapply guarantees_bind; [apply _| |].
  - apply guarantees_catch; [apply _|apply on_client_frames|].
    intros e m s2. unfold except_update_failed.
    destruct (exn_cls e); try done; by intros [= <-].
  - intros [status|] s2 _.
    + destruct (build_snapshot_spec status s2)
        as (s' & d & Hb & Hc & Hs & _).
      rewrite Hb. cbn. split; [|done].
      revert Hb. unfold build_snapshot. coro_simpl.
      case_decide; coro_simpl; by intros [= <- _].
    + unfold build_snapshot. coro_simpl. case_decide; by coro_simpl.
Qed.

(** [_schedule_upload] does nothing while the task it holds is not done,
    and otherwise makes one task and holds it. *)
Lemma schedule_upload_in_progress s :
  upload_in_progress s → _schedule_upload s = s.
Proof.
  intros (t & Ht & Hdone). unfold _schedule_upload. by rewrite Ht, Hdone.
Qed.

Lemma schedule_upload_creates s :
  ¬ upload_in_progress s →
  _schedule_upload s
  = set_upload_task (Some (length (loop_tasks (hass s))))
      (set_hass (Hass (clock (hass s)) (loop_tasks (hass s) ++ [TaskPending]))
         s).
Proof.
  intros Hno. unfold _schedule_upload.
  destruct (_upload_task s) as [t|] eqn:Ht; [|done].
  destruct (task_done (hass s) t) eqn:Hdone; [done|].
  destruct Hno. by exists t.
Qed.

Lemma upload_in_progress_cases s :
  upload_in_progress s ∨ ¬ upload_in_progress s.
Proof.
  unfold upload_in_progress.
  destruct (_upload_task s) as [t|]; [|right; by intros (? & ? & _)].
  destruct (task_done (hass s) t) eqn:Hdone.
  - right. intros (? & [= <-] & ?). congruence.
  - left. by exists t.
Qed.

Lemma task_done_app tasks clk t :
  task_done (Hass clk (tasks ++ [TaskPending])) t = false →
  task_done (Hass clk tasks) t = false ∨ t = length tasks.
Proof.
  unfold task_done. cbn. intros H.
  destruct (decide (t < length tasks)%nat) as [Hlt|Hge].
  - left. by rewrite lookup_app_l in H.
  - right. destruct (decide (t = length tasks)) as [|Hne]; [done|].
    rewrite lookup_ge_None_2 in H; [done|].
    rewrite length_app. cbn. lia.
Qed.

Lemma task_done_insert tasks clk t st t' :
  st ≠ TaskPending →
  task_done (Hass clk (<[t := st]> tasks)) t' = false →
  task_done (Hass clk tasks) t' = false.
Proof.
  unfold task_done. cbn. intros Hst.
  destruct (<[t:=st]> tasks !! t') as [st'|] eqn:Hl; [|done].
  apply list_lookup_insert_Some in Hl as [(-> & -> & _)|[_ ->]]; [|done].
  by destruct st'.
Qed.

Lemma schedule_upload_single s :
  (∀ t, task_done (hass s) t = false → _upload_task s = Some t) →
  ∀ t, task_done (hass (_schedule_upload s)) t = false →
       _upload_task (_schedule_upload s) = Some t.
Proof.
  intros Hs t. destruct (upload_in_progress_cases s) as [Hin|Hno].
  { rewrite schedule_upload_in_progress by done. apply Hs. }
  rewrite schedule_upload_creates by done. cbn.
  intros [Hold| ->]%task_done_app; [|done].
  destruct Hno. exists t. split; [|done]. apply Hs. by destruct (hass s).
Qed.

Lemma handle_state_change_single ev s :
  (∀ t, task_done (hass s) t = false → _upload_task s = Some t) →
  ∀ t, task_done (hass (_handle_state_change ev s)) t = false →
       _upload_task (_handle_state_change ev s) = Some t.
Proof.
  intros Hs. unfold _handle_state_change.
  destruct (ev_new_state ev) as [st|]; [|done].
  by apply schedule_upload_single.
Qed.

Lemma finish_task_single t st s :
  st ≠ TaskPending →
  (∀ t', task_done (hass s) t' = false → _upload_task s = Some t') →
  ∀ t', task_done (hass (finish_task t st s)) t' = false →
        _upload_task (finish_task t st s) = Some t'.
Proof.
  intros Hst Hs t' Hdone. cbn in *. apply Hs.
  apply task_done_insert in Hdone; [|done]. by destruct (hass s).
Qed.

Lemma end_status_not_pending e : end_status e ≠ TaskPending.
Proof. unfold end_status. by case_decide. Qed.

Lemma settle_task_inv t c l :
  loop_inv l →
  guarantees same_tasks (λ _ _, True) (self l) c →
  loop_inv (settle_task t c l).
Proof.
  intros [Hs Hu Hr Hd] Hc.
  assert (∀ s, same_tasks (self l) s →
            ∀ t', task_done (hass s) t' = false → _upload_task s = Some t')
    as Hsame.
  { intros s [Hh Ht] t'. rewrite Hh, Ht. apply Hs. }
  destruct c as [s a|s e|s R w k]; cbn in Hc.
  - destruct Hc as [Hc _]. split; cbn; try done.
    + apply finish_task_single; [done|by apply Hsame].
    + intros t' c' [_ Hl]%lookup_delete_Some. by eapply Hu.
  - split; cbn; try done.
    + apply finish_task_single; [apply end_status_not_pending|by apply Hsame].
    + intros t' c' [_ Hl]%lookup_delete_Some. by eapply Hu.
  - destruct Hc as [Hc Hk]. split; cbn; try done.
    + by apply Hsame.
    + intros t' c' [[<- <-]|[_ Hl]]%lookup_insert_Some; [exact Hk|].
      by eapply Hu.
Qed.

Lemma settle_refresh_inv i c l :
  loop_inv l →
  guarantees same_tasks (λ _ d, synced d) (self l) c →
  loop_inv (settle_refresh i c l).
Proof.
  intros [Hs Hu Hr Hd] Hc.
  assert (∀ s, same_tasks (self l) s →
            ∀ t', task_done (hass s) t' = false → _upload_task s = Some t')
    as Hsame.
  { intros s [Hh Ht] t'. rewrite Hh, Ht. apply Hs. }
  destruct c as [s a|s e|s R w k]; cbn in Hc.
  - destruct Hc as [Hc Hq]. split; cbn; try done.
    + by apply Hsame.
    + intros i' c' [_ Hl]%lookup_delete_Some. by eapply Hr.
    + by intros d [= <-].
  - split; cbn; try done.
    + by apply Hsame.
    + intros i' c' [_ Hl]%lookup_delete_Some. by eapply Hr.
  - destruct Hc as [Hc Hk]. split; cbn; try done.
    + by apply Hsame.
    + intros i' c' [[<- <-]|[_ Hl]]%lookup_insert_Some; [exact Hk|].
      by eapply Hr.
Qed.

Lemma step_inv l a : loop_inv l → loop_inv (step l a).
Proof.
  intros Hl. destruct a as [ev|d|t|t ans|i|i ans]; cbn.
  - destruct Hl as [Hs Hu Hr Hd]. split; cbn; try done.
    by apply handle_state_change_single.
  - destruct Hl as [Hs Hu Hr Hd]. split; cbn; done.
  - case_decide; [|done].
    apply settle_task_inv; [done|apply debounced_upload_frames].
  - destruct (uploads l !! t) as [[| |s R w k]|] eqn:Hw; try done.
    destruct (typed w ans) as [o|]; [|done].
    apply settle_task_inv; [done|].
    apply (inv_uploads l Hl t _ Hw).
  - case_decide; [|done].
    apply settle_refresh_inv; [done|apply update_data_frames].
  - destruct (refreshes l !! i) as [[| |s R w k]|] eqn:Hw; try done.
    destruct (typed w ans) as [o|]; [|done].
    apply settle_refresh_inv; [done|].
    apply (inv_refreshes l Hl i _ Hw).
Qed.

Lemma exec_inv l acts : loop_inv l → loop_inv (exec l acts).
Proof.
  revert l. induction acts as [|a acts IH]; intros l Hl; [done|].
  apply IH, step_inv, Hl.
Qed.

Lemma start_inv c :
  (∀ t, task_done (hass c) t = false → _upload_task c = Some t) →
  loop_inv (start c).
Proof. intros Hc. split; cbn; done. Qed.

(** Under the invariant at most one task is not done. *)
Lemma loop_inv_live l : loop_inv l → (length (live_tasks l) ≤ 1)%nat.
Proof.
  intros Hl. unfold live_tasks.
  set (n := length (loop_tasks (hass (self l)))).
  assert (NoDup (filter (λ t, task_done (hass (self l)) t = false) (seq 0 n)))
    as Hnd by apply NoDup_filter, NoDup_seq.
  destruct (filter _ (seq 0 n)) as [|t1 [|t2 ts]] eqn:Hf; cbn; try lia.
  assert (t1 ∈ filter (λ t, task_done (hass (self l)) t = false) (seq 0 n))
    as H1 by (rewrite Hf; set_solver).
  assert (t2 ∈ filter (λ t, task_done (hass (self l)) t = false) (seq 0 n))
    as H2 by (rewrite Hf; set_solver).
  apply list_elem_of_filter in H1 as [H1 _], H2 as [H2 _].
  apply (inv_single l Hl) in H1, H2.
  apply NoDup_cons in Hnd as [Hnot _]. destruct Hnot.
  assert (t1 = t2) as -> by congruence. set_solver.
Qed.

Lemma exec_app l acts1 acts2 :
  exec l (acts1 ++ acts2) = exec (exec l acts1) acts2.
Proof. apply foldl_app. Qed.

Lemma exec_state_changes l evs :
  exec l (map StateChange evs)
  = Loop (deliver evs (self l)) (uploads l) (refreshes l) (data l)
         (http_log l).
Proof.
  revert l. induction evs as [|ev evs IH]; intros l; [by destruct l|].
  cbn [map]. change (exec l (StateChange ev :: map StateChange evs))
    with (exec (step l (StateChange ev)) (map StateChange evs)).
  by rewrite IH.
Qed.

(** While an upload is in progress a state change only appends. *)
Lemma handle_state_change_in_progress ev s :
  upload_in_progress s →
  _handle_state_change ev s
  = set_data_buffer (_data_buffer s ++ readings_of [ev]) s.
Proof.
  intros Hin. unfold _handle_state_change. rewrite readings_of_cons.
  destruct (ev_new_state ev) as [st|].
  - apply schedule_upload_in_progress.
    destruct Hin as (t & ? & ?). by exists t.
  - cbn. rewrite app_nil_r. by destruct s.
Qed.

Lemma deliver_in_progress evs s :
  upload_in_progress s →
  deliver evs s = set_data_buffer (_data_buffer s ++ readings_of evs) s.
Proof.
  revert s. induction evs as [|ev evs IH]; intros s Hin.
  { cbn. rewrite app_nil_r. by destruct s. }
  change (deliver (ev :: evs) s) with (deliver evs (_handle_state_change ev s)).
  rewrite handle_state_change_in_progress by done.
  rewrite IH by (destruct Hin as (t & ? & ?); by exists t).
  rewrite (readings_of_app [ev] evs : readings_of (ev :: evs) = _).
  cbn. by rewrite <- app_assoc.
Qed.

(** The state change that finds no upload in progress makes the task. *)
Lemma first_state_change ev st s :
  ev_new_state ev = Some st → ¬ upload_in_progress s →
  let t := length (loop_tasks (hass s)) in
  let s1 := _handle_state_change ev s in
  hass s1 = Hass (clock (hass s)) (loop_tasks (hass s) ++ [TaskPending])
  ∧ _upload_task s1 = Some t
  ∧ upload_in_progress s1
  ∧ _data_buffer s1 = _data_buffer s ++ readings_of [ev]
  ∧ _api_client s1 = _api_client s.
Proof.
  intros Hst Hno t s1. subst s1. unfold _handle_state_change.
  rewrite (readings_of_cons ev []), Hst.
  rewrite schedule_upload_creates.
  2:{ intros (t' & ? & ?). apply Hno. by exists t'. }
  cbn. repeat split; try done.
  exists t. split; [done|]. unfold task_done. cbn.
  by rewrite list_lookup_middle.
Qed.

(** The loop after the first state change, the start of the task it made
    and further state changes before and after that start. *)
Lemma window_shape l0 ev st evs1 evs2 :
  ev_new_state ev = Some st →
  ¬ upload_in_progress (self l0) →
  let t := length (loop_tasks (hass (self l0))) in
  uploads l0 !! t = None →
  ∃ s3 k,
    exec l0 (StateChange ev :: map StateChange evs1
             ++ StartTask t :: map StateChange evs2)
    = Loop s3
        (<[t := Await (deliver evs1 (_handle_state_change ev (self l0)))
                      (AsyncioSleep 5) k]> (uploads l0))
        (refreshes l0) (data l0) (http_log l0)
    ∧ (∀ s, k (Some tt) s
            = bind_coro (_async_upload_buffered_data s)
                (λ _, await AsyncRequestRefresh))
    ∧ hass s3 = Hass (clock (hass (self l0)))
                     (loop_tasks (hass (self l0)) ++ [TaskPending])
    ∧ _upload_task s3 = Some t
    ∧ _data_buffer s3
      = _data_buffer (self l0) ++ readings_of (ev :: evs1 ++ evs2)
    ∧ _api_client s3 = _api_client (self l0).
Proof.
  intros Hst Hno t Hfree.
  destruct (first_state_change ev st (self l0) Hst Hno)
    as (Hh1 & Ht1 & Hin1 & Hb1 & Hc1).
  set (s1 := _handle_state_change ev (self l0)) in *.
  change (exec l0 (StateChange ev :: ?acts))
    with (exec (step l0 (StateChange ev)) acts).
  rewrite exec_app, exec_state_changes. cbn [step self uploads refreshes data http_log].
  fold s1.
  set (s2 := deliver evs1 s1).
  assert (s2 = set_data_buffer (_data_buffer s1 ++ readings_of evs1) s1) as Hs2
    by by apply deliver_in_progress.
  change (exec ?l (StartTask t :: ?acts))
    with (exec (step l (StartTask t)) acts).
  cbn [step self uploads].
  rewrite decide_True.
  2:{ split; [|done]. rewrite Hs2. cbn. rewrite Hh1. cbn.
      by rewrite list_lookup_middle. }
  unfold _async_debounced_upload at 1. coro_simpl.
  cbn [settle_task log_await uploads refreshes data http_log].
  rewrite exec_state_changes. cbn [self uploads refreshes data http_log].
  eexists _, _. split; [reflexivity|].
  split. { intros s. reflexivity. }
  rewrite (deliver_in_progress evs2 s2).
  2:{ rewrite Hs2. destruct Hin1 as (t' & ? & ?). by exists t'. }
  rewrite Hs2.
  cbn [hass _upload_task _data_buffer _api_client set_data_buffer].
  rewrite Hh1, Ht1, Hb1, Hc1. repeat split; try done.
  rewrite (readings_of_app [ev] (evs1 ++ evs2)
           : readings_of (ev :: evs1 ++ evs2) = _).
  by rewrite readings_of_app, !app_assoc.
Qed.

(** The window closes: the sleep of the task ends. *)
Lemma timer_fires l0 ev st evs1 evs2 :
  ev_new_state ev = Some st →
  ¬ upload_in_progress (self l0) →
  unauthenticated (_api_client (self l0)) = false →
  let t := length (loop_tasks (hass (self l0))) in
  uploads l0 !! t = None →
  let window := StateChange ev :: map StateChange evs1
                ++ StartTask t :: map StateChange evs2 in
  let request := readings_request (_api_client (self l0))
                   (_data_buffer (self l0)
                    ++ readings_of (ev :: evs1 ++ evs2)) in
  http_log (exec l0 window) = http_log l0
  ∧ loop_tasks (hass (self (exec l0 window)))
    = loop_tasks (hass (self l0)) ++ [TaskPending]
  ∧ (∃ s k, uploads (exec l0 window) !! t = Some (Await s (AsyncioSleep 5) k))
  ∧ ∃ l, l = exec l0 (window ++ [ResumeTask t AnsDone])
    ∧ http_log l = http_log l0 ++ [request]
    ∧ _data_buffer (self l) = []
    ∧ loop_tasks (hass (self l))
      = loop_tasks (hass (self l0)) ++ [TaskPending]
    ∧ ∀ r : http_reply,
        let l' := exec l [ResumeTask t (reply_answer r);
                          ResumeTask t AnsDone] in
        http_log l' = http_log l
        ∧ loop_tasks (hass (self l'))
          = loop_tasks (hass (self l0)) ++ [TaskFinished]
        ∧ uploads l' !! t = None.
Proof.
  intros Hst Hno Ha t Hfree window request.
  destruct (window_shape l0 ev st evs1 evs2 Hst Hno Hfree)
    as (s3 & k & Hwin & Hk & Hh3 & Ht3 & Hb3 & Hc3).
  fold t in Hwin. fold window in Hwin.
  rewrite Hwin. cbn [http_log self uploads].
  split; [done|]. split; [by rewrite Hh3|].
  split; [eexists _, _; apply lookup_insert_eq|].
  eexists. split; [reflexivity|].
  rewrite exec_app, Hwin.
  assert (_data_buffer s3 ≠ []) as Hne.
  { rewrite Hb3, readings_of_cons, Hst. by destruct (_data_buffer (self l0)). }
  assert (unauthenticated (_api_client s3) = false) as Ha3 by by rewrite Hc3.
  destruct (upload_authenticated s3 Hne Ha3) as (k2 & Hflush & Hk2).
  cbn [exec foldl step uploads]. rewrite lookup_insert_eq. cbn [typed self].
  rewrite Hk, Hflush.
  cbn [bind_coro settle_task log_await self uploads refreshes data http_log].
  rewrite Hb3, Hc3. fold request.
  split; [done|]. split; [done|]. split; [cbn; by rewrite Hh3|].
  intros r. cbn [foldl step uploads]. rewrite lookup_insert_eq.
  assert (typed (HttpCall request) (reply_answer r) = Some (Some r)) as ->
    by by destruct r.
  cbn [self].
  rewrite Hk2. unfold upload_resume.
  destruct r as [r|status bad];
    [destruct (mapped_error r)
    |destruct (decide (status = 200)); [destruct bad|]];
    coro_simpl;
    cbn [settle_task log_await self uploads refreshes data http_log
         reply_answer];
    rewrite ?lookup_insert_eq, ?lookup_delete_eq;
    cbn [typed settle_task self uploads refreshes data http_log finish_task
         end_status];
    (split; [done|]); cbn; rewrite Hh3; cbn;
    (split; [|by rewrite ?lookup_delete_eq]);
    by rewrite insert_app_r_alt, Nat.sub_diag by done.
Qed.

(** C1, as the code has it.  One debounce window in which nothing but
    state changes happens.  No upload task is in progress and the client
    holds credentials; what an earlier failed upload left in the buffer
    is still there.  A state change [ev] carrying a new state arrives, and
    further state changes arrive before ([evs1]) and after ([evs2]) the
    task made for the first one has started to sleep.  Throughout the
    window nothing is sent and there is the one new task, waiting for its
    sleep of 5 seconds.  When its sleep ends exactly one request goes out,
    and it carries what the buffer held before followed by the readings
    of all these state changes, in order of arrival; the buffer is empty
    again.  The task then runs to its end on any reply without a further
    request.  In general: a state change that finds an upload in progress
    changes neither the tasks nor the task handle, and in every state the
    loop can reach from a new coordinator at most one upload task is not
    done. *)
Theorem debounce_single_upload :
  (∀ (l0 : loop) (ev : event) (st : ha_state) (evs1 evs2 : list event),
     ev_new_state ev = Some st →
     ¬ upload_in_progress (self l0) →
     unauthenticated (_api_client (self l0)) = false →
     let t := length (loop_tasks (hass (self l0))) in
     uploads l0 !! t = None →
     let window := StateChange ev :: map StateChange evs1
                   ++ StartTask t :: map StateChange evs2 in
     let request := readings_request (_api_client (self l0))
                      (_data_buffer (self l0)
                       ++ readings_of (ev :: evs1 ++ evs2)) in
     http_log (exec l0 window) = http_log l0
     ∧ loop_tasks (hass (self (exec l0 window)))
       = loop_tasks (hass (self l0)) ++ [TaskPending]
     ∧ (∃ s k, uploads (exec l0 window) !! t
               = Some (Await s (AsyncioSleep 5) k))
     ∧ ∃ l, l = exec l0 (window ++ [ResumeTask t AnsDone])
       ∧ http_log l = http_log l0 ++ [request]
       ∧ _data_buffer (self l) = []
       ∧ loop_tasks (hass (self l))
         = loop_tasks (hass (self l0)) ++ [TaskPending]
       ∧ ∀ r : http_reply,
           let l' := exec l [ResumeTask t (reply_answer r);
                             ResumeTask t AnsDone] in
           http_log l' = http_log l
           ∧ loop_tasks (hass (self l'))
             = loop_tasks (hass (self l0)) ++ [TaskFinished]
           ∧ uploads l' !! t = None)
  ∧ (∀ (s : coordinator) (ev : event),
       upload_in_progress s →
       hass (_handle_state_change ev s) = hass s
       ∧ _upload_task (_handle_state_change ev s) = _upload_task s)
  ∧ (∀ clk api_url token instance_id (acts : list action),
       (length (live_tasks
                  (exec (start (init clk api_url token instance_id)) acts))
        ≤ 1)%nat).
Proof.
  split; [|split].
  - intros l0 ev st evs1 evs2. apply timer_fires.
  - intros s ev Hin. by rewrite handle_state_change_in_progress.
  - intros clk api_url token instance_id acts.
    apply loop_inv_live, exec_inv, start_inv. done.
Qed.

Lemma debounce_single_upload_witness :
  http_log
    (exec (start Scenario.buffering)
       ((StateChange (Scenario.solar "2.5")
         :: map StateChange [Scenario.solar "3.5"]
         ++ StartTask 0 :: map StateChange [Scenario.solar "4.5"])
        ++ [ResumeTask 0 AnsDone]))
  = [readings_request Scenario.paired_client
       (Scenario.solar_reading "1.5"
        :: readings_of [Scenario.solar "2.5"; Scenario.solar "3.5";
                        Scenario.solar "4.5"])].
Proof.
  assert (¬ upload_in_progress (self (start Scenario.buffering))) as Hno
    by (by intros (t & Ht & _)).
  destruct (proj1 debounce_single_upload (start Scenario.buffering)
              (Scenario.solar "2.5") _ [Scenario.solar "3.5"]
              [Scenario.solar "4.5"] eq_refl Hno eq_refl eq_refl)
    as (_ & _ & _ & l & -> & Hlog & _).
  exact Hlog.
Defined.

(** C1, as stated, fails.  An idle coordinator gets the state change
    "1.5", which makes the task 0; the task starts to sleep.  Within its
    5 seconds a refresh cycle starts, and its flush sends the buffer,
    ["1.5"]; then the state change "2.5" arrives, which makes no second
    task.  When the sleep ends the task sends what the buffer holds now,
    ["2.5"]: the two readings of the one window went out in two uploads,
    neither of which carries both. *)
Lemma one_upload_per_window_fails : ¬ one_upload_per_window.
Proof.
  intros Hclaim.
  destruct (Hclaim (start Scenario.idle) (Scenario.solar "1.5") _
              [StartRefresh 0; StateChange (Scenario.solar "2.5")]
              eq_refl eq_refl)
    as (batch & Hone & _).
  - by intros (t & Ht & _).
  - reflexivity.
  - reflexivity.
  - by repeat constructor.
  - vm_compute in Hone. discriminate Hone.
Qed.

(** C9. Whatever a refresh cycle is answered and whatever happens while it
    waits, a dict it returns has [connected] true and [sync_status]
    "synced".  So in every state the loop can reach from a new
    coordinator, [data] is either absent, and the status sensor shows
    "unknown", or such a dict, and the sensor shows "synced": it never
    shows "syncing" or "error". *)
Theorem snapshots_are_synced :
  (∀ (s s' : coordinator) script (d : pydict) (tr : list awaited),
     run (_async_update_data s) script = (Returned s' d, tr) →
     d !! "connected" = Some (PBool true)
     ∧ d !! "sync_status" = Some (PStr "synced")
     ∧ SyncStatusSensor.native_value (Some d) = PStr "synced")
  ∧ (∀ clk api_url token instance_id (acts : list action),
       let l := exec (start (init clk api_url token instance_id)) acts in
       match data l with
       | Some d =>
           d !! "connected" = Some (PBool true)
           ∧ d !! "sync_status" = Some (PStr "synced")
           ∧ SyncStatusSensor.native_value (data l) = PStr "synced"
       | None => SyncStatusSensor.native_value (data l) = PStr "unknown"
       end
       ∧ SyncStatusSensor.native_value (data l) ≠ PStr "syncing"
       ∧ SyncStatusSensor.native_value (data l) ≠ PStr "error").
Proof.
  assert (∀ d, synced d →
            SyncStatusSensor.native_value (Some d) = PStr "synced") as Hnv.
  { intros d [_ Hs]. cbn. unfold dict_get_default. by rewrite Hs. }
  split.
  - intros s s' script d tr Hrun.
    assert (synced d) as Hd.
    { eapply (guarantees_run same_tasks (λ _ d, synced d));
        [apply update_data_frames|exact Hrun]. }
    destruct Hd as [Hc Hs]. split; [done|]. split; [done|]. by apply Hnv.
  - intros clk api_url token instance_id acts l.
    assert (loop_inv l) as Hl by (apply exec_inv, start_inv; done).
    destruct (data l) as [d|] eqn:Hdata.
    + pose proof (inv_data l Hl d Hdata) as Hd.
      rewrite (Hnv d Hd). destruct Hd as [Hc Hs]. done.
    + done.
Qed.

Lemma snapshots_are_synced_witness :
  ∃ s' d tr,
    run (_async_update_data Scenario.idle) [(AnsHttp (Response 200 ∅), id)]
    = (Returned s' d, tr)
    ∧ SyncStatusSensor.native_value (Some d) = PStr "synced".
Proof.
  eexists _, _, _. split; [reflexivity|].
  eapply (proj1 snapshots_are_synced Scenario.idle _
            [(AnsHttp (Response 200 ∅), id)]).
  reflexivity.
Defined.

(** C4, at an input where it fails.  On 2024-01-01 the first refresh
    dates the counter and five readings are uploaded: the counter stands
    at 5.  Two seconds after midnight a state change is in the buffer
    when a refresh cycle starts.  Its flush sends the reading, the cloud
    answers 200 and the timestamp of the last upload is of 2024-01-02;
    its status call is answered 200.  One reading was uploaded on this
    day, in this very cycle, yet the dict the cycle returns, dated
    2024-01-02, reports [readings_today] as 0, and so does the sensor for
    the readings uploaded today: the counter was raised to 6 by the flush
    and then reset, because its date was still that of the day before. *)
Theorem rollover_cycle_drops_its_batch :
  let l1 := exec (start Scenario.fresh)
              (Scenario.first_day ++ Scenario.past_midnight) in
  let l2 := exec l1 Scenario.rollover_cycle in
  _readings_today (self l1) = 5
  ∧ _readings_today_date (self l1) = Some "2024-01-01"
  ∧ now (self l1) = Scenario.morning
  ∧ _data_buffer (self l1)
    = [Scenario.solar_reading_at Scenario.morning "2.5"]
  ∧ http_log l2
    = http_log l1
      ++ [readings_request Scenario.paired_client
            [Scenario.solar_reading_at Scenario.morning "2.5"];
          status_request Scenario.paired_client]
  ∧ _last_upload (self l2) = Some Scenario.morning
  ∧ _data_buffer (self l2) = []
  ∧ (∃ d, data l2 = Some d
          ∧ d !! "readings_today" = Some (PInt 0)
          ∧ d !! "last_sync" = Some (PStr "2024-01-02T00:00:02"))
  ∧ ReadingsTodaySensor.native_value (data l2) = PInt 0
  ∧ _readings_today (self l2) = 0.
Proof.
  intros l1 l2. repeat split; try (vm_compute; reflexivity).
  eexists. split; [vm_compute; reflexivity|]. split; vm_compute; reflexivity.
Qed.

End LoopFacts.

(** * Further properties *)

(** ** Reasoning with [raises_only] *)






(** A coroutine that keeps the state as it finds it ends, undisturbed, in
    the state it was started in. *)
Lemma guarantees_eq_run {S A} (c : coro S A) s0 answers :
  guarantees eq (λ _ _, True) s0 c →
  final (run c (undisturbed answers)).1 = s0.
Proof.
  revert s0 answers. induction c as [s a|s e|s R w k IH]; cbn;
    intros s0 answers.
  - by intros [<- _].
  - by intros <-.
  - intros [<- Hk]. destruct answers as [|ans answers]; [done|]. cbn.
    destruct (typed w ans) as [o|]; [|done].
    specialize (IH o s0 s0 answers (Hk o s0)). unfold undisturbed in IH.
    by destruct (run (k o s0) (map (λ a, (a, id)) answers)).
Qed.

(** ** The API client, further *)

Module ApiMore.
Import Api ApiSpec ApiFacts.







(** X1. [unpair].  Without credentials it raises [AuthenticationError] at
    once and awaits nothing.  With credentials it sends exactly its one
    request and returns [True] for HTTP 200, [False] for every other
    status but 401, which raises [AuthenticationError]; a timeout or
    transport error raises [CannotConnect]. *)
Theorem unpair_outcomes
    (c : client) (r : http_result) (f : client -> client)
    (rest : list (answer * (client -> client))) :
  if unauthenticated c
  then ∀ script,
         run (async_unpair c) script
         = (Raised c (Exn AuthenticationError (PStr "Not authenticated")), [])
  else ∃ out,
         run (async_unpair c) ((AnsHttp r, f) :: rest)
         = (out, [Awaited (HttpCall (unpair_request c))])
         ∧ match r with
           | Response status _ =>
               if decide (status = 401)
               then out = Raised (f c)
                            (Exn AuthenticationError
                               (PStr "Invalid or expired token"))
               else if decide (status = 200)
               then out = Returned (f c) true
               else out = Returned (f c) false
           | TimedOut | ClientError _ => raises out CannotConnect
           end.
Proof.
  destruct (unauthenticated c) eqn:H.
  - intros script. by destruct (unauthenticated_refuses c H script) as (_ & _ & ?).
  - unfold async_unpair. coro_simpl. rewrite H. coro_simpl.
    destruct r as [status body| |msg]; coro_simpl; cbn.
    + repeat case_decide; try lia; coro_simpl; eexists; (split; [done|]).
      * done.
      * by rewrite bool_decide_eq_true_2.
      * by rewrite bool_decide_eq_false_2.
    + eexists; split; [done|]. by cbn.
    + eexists; split; [done|]. by cbn.
Qed.

(** X20. A body that is not read does not matter.  [unpair] never calls
    [response.json()], [postReadings] and [getStatus] call it on status
    200 only, [pair] on 200 and 400 only.  On every other status a
    response whose body is no JSON object does what a response with that
    status and any JSON object as body does: the statements about results
    [Response status body] hold for such responses too. *)
Theorem unread_body_does_not_matter
    (status : Z) (bad : bad_body) (body : pydict) :
  (∀ c f rest,
     run (async_unpair c) ((AnsBadBody status bad, f) :: rest)
     = run (async_unpair c) ((AnsHttp (Response status body), f) :: rest))
  ∧ (status ≠ 200 →
     (∀ rs c f rest,
        run (async_post_readings rs c) ((AnsBadBody status bad, f) :: rest)
        = run (async_post_readings rs c)
              ((AnsHttp (Response status body), f) :: rest))
     ∧ (∀ c f rest,
          run (async_get_status c) ((AnsBadBody status bad, f) :: rest)
          = run (async_get_status c)
                ((AnsHttp (Response status body), f) :: rest))
     ∧ (status ≠ 400 →
        ∀ code c f rest,
          run (async_pair code c) ((AnsBadBody status bad, f) :: rest)
          = run (async_pair code c)
                ((AnsHttp (Response status body), f) :: rest))).
Proof.
  split; [|intros H200; split; [|split]].
  - intros c f rest. unfold async_unpair. coro_simpl.
    destruct (unauthenticated c); by coro_simpl.
  - intros rs c f rest. unfold async_post_readings. coro_simpl.
    destruct (unauthenticated c); coro_simpl; [done|].
    repeat case_decide; try done; by coro_simpl.
  - intros c f rest. unfold async_get_status. coro_simpl.
    destruct (unauthenticated c); coro_simpl; [done|].
    repeat case_decide; try done; by coro_simpl.
  - intros H400 code c f rest. unfold async_pair. coro_simpl.
    repeat case_decide; try done; by coro_simpl.
Qed.

Lemma post_readings_writes_nothing rs c :
  guarantees eq (λ _ _, True) c (async_post_readings rs c).
Proof.
  unfold async_post_readings. coro_simpl. destruct (unauthenticated c);
    coro_simpl; cbn; [done|].
  split; [done|].
  intros [[[status body| |msg]|status [msg|msg|]]|] s'; coro_simpl; cbn;
    try done; repeat case_decide; by coro_simpl.
Qed.

Lemma get_status_writes_nothing c :
  guarantees eq (λ _ _, True) c (async_get_status c).
Proof.
  unfold async_get_status. coro_simpl. destruct (unauthenticated c);
    coro_simpl; cbn; [done|].
  split; [done|].
  intros [[[status body| |msg]|status [msg|msg|]]|] s'; coro_simpl; cbn;
    try done; repeat case_decide; by coro_simpl.
Qed.

(** X3. The client's state is written by a successful [pair] and by
    nothing else.  [postReadings], [getStatus] and [unpair] end, on any
    answers, with the client as it was.  A [pair] that raises anything but
    [KeyError] leaves the client as the rest of the program left it.  The
    one half-way case is a 200 response that carries [api_token] but no
    [instance_id]: the token is already stored when [KeyError] is raised;
    without [api_token] nothing is stored. *)
Theorem client_written_by_pair_only :
  (∀ rs c answers,
     final (run (async_post_readings rs c) (undisturbed answers)).1 = c)
  ∧ (∀ c answers,
       final (run (async_get_status c) (undisturbed answers)).1 = c)
  ∧ (∀ c answers,
       final (run (async_unpair c) (undisturbed answers)).1 = c)
  ∧ (∀ code c a f rest s e tr,
       run (async_pair code c) ((a, f) :: rest) = (Raised s e, tr) →
       exn_cls e ≠ KeyError → s = f c)
  ∧ (∀ code c body f rest,
       body !! "api_token" = None →
       run (async_pair code c) ((AnsHttp (Response 200 body), f) :: rest)
       = (Raised (f c) (Exn KeyError (PStr "api_token")),
          [Awaited (HttpCall (pair_request c code))]))
  ∧ (∀ code c body token f rest,
       body !! "api_token" = Some token →
       body !! "instance_id" = None →
       run (async_pair code c) ((AnsHttp (Response 200 body), f) :: rest)
       = (Raised (set_token token (f c)) (Exn KeyError (PStr "instance_id")),
          [Awaited (HttpCall (pair_request c code))])).
Proof.
  split; [|split; [|split; [|split; [|split]]]].
  - intros. apply guarantees_eq_run, post_readings_writes_nothing.
  - intros. apply guarantees_eq_run, get_status_writes_nothing.
  - intros. apply guarantees_eq_run, unpair_writes_nothing.
  - intros code c a f rest s e tr. unfold async_pair. coro_simpl.
    destruct a as [[status body| |msg]|status [msg|msg|]| |]; coro_simpl;
      try done; try (by intros [= <- _ _]);
      repeat case_decide; coro_simpl; try (by intros [= <- _ _]).
    destruct (body !! "api_token"); coro_simpl;
      [|by intros [= _ <- _]].
    destruct (body !! "instance_id"); coro_simpl; [done|].
    by intros [= _ <- _].
  - intros code c body f rest Ht. unfold async_pair. coro_simpl.
    repeat case_decide; try done. coro_simpl. by rewrite Ht.
  - intros code c body token f rest Ht Hi. unfold async_pair. coro_simpl.
    repeat case_decide; try done. coro_simpl. rewrite Ht. coro_simpl.
    by rewrite Hi.
Qed.

(** X4. The credentials [pair] returns are the ones sent afterwards.  From
    a client without a token the pairing request carries no
    [Authorization] header.  After a 200 response with a non-empty token
    [t] and instance id [i], the request of [postReadings] has the header
    [Authorization: Bearer t] and [i] as [instance_id] beside the readings,
    the request of [getStatus] has the same header and [i] as its query
    parameter, and both go to the same base URL as before. *)
Theorem paired_credentials_are_sent
    (c : client) (code t i : string) (body : pydict)
    (rest : list (answer * (client -> client))) :
  truthy (_token c) = false →
  body !! "api_token" = Some (PStr t) →
  body !! "instance_id" = Some (PStr i) →
  t ≠ "" → i ≠ "" →
  rq_headers (pair_request c code) !! "Authorization" = None
  ∧ ∃ c',
      run (async_pair code c) ((AnsHttp (Response 200 body), id) :: rest)
      = (Returned c' (JsonObject body),
         [Awaited (HttpCall (pair_request c code))])
      ∧ (∀ rs, ∃ rq,
           run (async_post_readings rs c') []
           = (Blocked c', [Awaited (HttpCall rq)])
           ∧ rq_method rq = POST
           ∧ rq_url rq = _api_url c +:+ "/api/ha/readings"
           ∧ rq_headers rq !! "Authorization" = Some ("Bearer " +:+ t)
           ∧ rq_payload rq = ReadingsPayload (PStr i) rs)
      ∧ (∃ rq,
           run (async_get_status c') []
           = (Blocked c', [Awaited (HttpCall rq)])
           ∧ rq_method rq = GET
           ∧ rq_url rq = _api_url c +:+ "/api/ha/status"
           ∧ rq_headers rq !! "Authorization" = Some ("Bearer " +:+ t)
           ∧ rq_payload rq = InstancePayload (PStr i)).
Proof.
  intros Hc Ht Hi Htne Hine.
  assert (truthy (PStr t) = true) as Htt
    by (cbn; by apply negb_true_iff, String.eqb_neq).
  assert (truthy (PStr i) = true) as Hit
    by (cbn; by apply negb_true_iff, String.eqb_neq).
  split.
  { unfold pair_request, _headers. cbn [rq_headers]. by rewrite Hc. }
  exists (Client (_api_url c) (PStr t) (PStr i)).
  assert (unauthenticated (Client (_api_url c) (PStr t) (PStr i)) = false)
    as Hauth by (unfold unauthenticated; cbn [_token _instance_id];
                 by rewrite Htt, Hit).
  destruct (authenticated_sends _ Hauth) as (Hpost & Hget & _).
  split.
  { unfold async_pair. coro_simpl. repeat case_decide; try done.
    coro_simpl. rewrite Ht. coro_simpl. rewrite Hi. by coro_simpl. }
  split.
  - intros rs. eexists. split; [apply Hpost|].
    unfold readings_request, _headers. cbn [rq_method rq_url rq_headers
      rq_payload _token _instance_id _api_url]. rewrite Htt.
    repeat split; try apply lookup_insert_eq.
  - eexists. split; [apply Hget|].
    unfold status_request, _headers. cbn [rq_method rq_url rq_headers
      rq_payload _token _instance_id _api_url]. rewrite Htt.
    repeat split; try apply lookup_insert_eq.
Qed.

Lemma paired_credentials_are_sent_witness :
  rq_headers (pair_request (Client "https://green.example" PNone PNone)
                "123456") !! "Authorization" = None.
Proof.
  apply (paired_credentials_are_sent
           (Client "https://green.example" PNone PNone) "123456" "t1" "i1"
           (<["api_token" := PStr "t1"]> (<["instance_id" := PStr "i1"]> ∅))
           []); done.
Defined.

End ApiMore.

(** ** The coordinator, further *)

Module CoordinatorMore.
Import Api Coordinator EventLoop ApiSpec CoordinatorSpec LoopSpec.
Import ApiFacts UploadFacts UpdateFacts LoopFacts ApiMore.

(** X5. A reading takes the entity id, the state and the time of the state
    change as they are, and of the attributes exactly those under the four
    keys [unit_of_measurement], [device_class], [state_class] and
    [friendly_name]: under such a key it has what the state has, under any
    other key nothing.  So a reading never has more than four attributes. *)
Theorem reading_keeps_whitelisted_attributes
    (entity_id : string) (st : ha_state) (k : string) :
  let r := make_reading entity_id st in
  r_entity_id r = entity_id
  ∧ r_state r = st_state st
  ∧ r_timestamp r = isoformat (st_last_updated st)
  ∧ r_attributes r !! k
    = (if decide (k ∈ kept_attributes) then st_attributes st !! k else None)
  ∧ (size (r_attributes r) ≤ 4)%nat.
Proof.
  cbn. repeat split.
  - rewrite map_lookup_filter.
    destruct (st_attributes st !! k) as [v|] eqn:Hk; cbn.
    + case_decide; case_guard; done.
    + by case_decide.
  - assert (dom (filter (λ kv : string * pyval, kv.1 ∈ kept_attributes)
                    (st_attributes st))
            ⊆ (list_to_set kept_attributes : gset string)) as Hdom.
    { intros x [v Hv]%elem_of_dom.
      apply map_lookup_filter_Some in Hv as [_ Hx].
      by apply elem_of_list_to_set. }
    rewrite <- size_dom. apply subseteq_size in Hdom.
    etrans; [exact Hdom|]. vm_compute. lia.
Qed.


Lemma deliver_in_progress_stays evs s :
  upload_in_progress s → upload_in_progress (deliver evs s).
Proof.
  intros Hin. rewrite deliver_in_progress by done.
  destruct Hin as (t & ? & ?). by exists t.
Qed.

Lemma handle_schedules ev st s :
  ev_new_state ev = Some st → upload_in_progress (_handle_state_change ev s).
Proof.
  intros Hst. unfold _handle_state_change. rewrite Hst.
  set (s1 := set_data_buffer _ s).
  destruct (upload_in_progress_cases s1) as [Hin|Hno].
  - by rewrite schedule_upload_in_progress.
  - rewrite schedule_upload_creates by done. eexists. split; [done|].
    unfold task_done. cbn. by rewrite list_lookup_middle.
Qed.

Lemma handle_tasks ev s :
  ∃ new,
    loop_tasks (hass (_handle_state_change ev s)) = loop_tasks (hass s) ++ new
    ∧ (length new ≤ 1)%nat ∧ (upload_in_progress s → new = []).
Proof.
  unfold _handle_state_change. destruct (ev_new_state ev) as [st|].
  2:{ exists []. rewrite app_nil_r. repeat split; cbn; (done || lia). }
  set (s1 := set_data_buffer _ s).
  destruct (upload_in_progress_cases s1) as [Hin|Hno].
  - rewrite schedule_upload_in_progress by done. exists [].
    rewrite app_nil_r. repeat split; cbn; (done || lia).
  - rewrite schedule_upload_creates by done. exists [TaskPending]. cbn.
    split; [done|]. split; [lia|].
    intros (t & ? & ?). destruct Hno. by exists t.
Qed.

Lemma deliver_tasks evs s :
  ∃ new, loop_tasks (hass (deliver evs s)) = loop_tasks (hass s) ++ new
         ∧ (length new ≤ 1)%nat.
Proof.
  revert s. induction evs as [|ev evs IH]; intros s.
  { exists []. cbn. rewrite app_nil_r. split; [done|lia]. }
  change (deliver (ev :: evs) s) with (deliver evs (_handle_state_change ev s)).
  destruct (ev_new_state ev) as [st|] eqn:Hst.
  - pose proof (handle_schedules ev st s Hst) as Hin.
    rewrite deliver_in_progress by done. cbn.
    destruct (handle_tasks ev s) as (new & -> & Hlen & _). by exists new.
  - unfold _handle_state_change at 1. rewrite Hst. apply IH.
Qed.

Lemma deliver_schedules evs s :
  readings_of evs ≠ [] → upload_in_progress (deliver evs s).
Proof.
  revert s. induction evs as [|ev evs IH]; intros s; [done|].
  change (deliver (ev :: evs) s) with (deliver evs (_handle_state_change ev s)).
  rewrite readings_of_cons. destruct (ev_new_state ev) as [st|] eqn:Hst.
  - intros _. eapply deliver_in_progress_stays, handle_schedules, Hst.
  - intros Hne. unfold _handle_state_change at 1. rewrite Hst. by apply IH.
Qed.

(** X6. State changes only ever append.  After any state changes [evs] the
    buffer is the old buffer followed by their readings in order of
    arrival, a state change without a new state adding none; client,
    timestamp, counter, counter date and clock are untouched.  If one of
    them carried a new state an upload task is in progress afterwards,
    and however many there were at most one task was made. *)
Theorem state_changes_append_and_schedule
    (evs : list event) (s : coordinator) :
  _data_buffer (deliver evs s) = _data_buffer s ++ readings_of evs
  ∧ _api_client (deliver evs s) = _api_client s
  ∧ _last_upload (deliver evs s) = _last_upload s
  ∧ _readings_today (deliver evs s) = _readings_today s
  ∧ _readings_today_date (deliver evs s) = _readings_today_date s
  ∧ clock (hass (deliver evs s)) = clock (hass s)
  ∧ (readings_of evs ≠ [] → upload_in_progress (deliver evs s))
  ∧ ∃ new, loop_tasks (hass (deliver evs s)) = loop_tasks (hass s) ++ new
           ∧ (length new ≤ 1)%nat.
Proof.
  destruct (deliver_fields evs s) as (? & ? & ? & ? & ? & ?).
  repeat (split; [done|]). split; [apply deliver_schedules|].
  apply deliver_tasks.
Qed.

Lemma fetch_status_run s1 r f rest :
  unauthenticated (_api_client s1) = false →
  run (bind_coro
         (catch_coro
            (zoom_coro _api_client set_api_client s1
               (async_get_status (_api_client s1)))
            except_update_failed)
         (λ status, build_snapshot status))
      ((AnsHttp r, f) :: rest)
  = (match update_failure r, r with
     | Some e, _ => Raised (f s1) e
     | None, Response _ status =>
         match build_snapshot (JsonObject status) (f s1) with
         | Ret s' d => Returned s' d
         | _ => Blocked (f s1)
         end
     | None, _ => Blocked (f s1)
     end, [Awaited (HttpCall (status_request (_api_client s1)))]).
Proof.
  intros Ha. unfold async_get_status. coro_simpl. rewrite Ha. coro_simpl.
  rewrite !set_api_client_same.
  destruct r as [status body| |msg]; coro_simpl; cbn.
  - repeat case_decide; try lia; coro_simpl; cbn;
      rewrite ?set_api_client_same; try done.
    destruct (build_snapshot_spec body (f s1)) as (s' & d & -> & _). done.
  - by rewrite set_api_client_same.
  - by rewrite set_api_client_same.
Qed.


(** X7. A refresh cycle that finds the buffer empty uploads nothing.
    Without credentials it raises [UpdateFailed] at once and sends no
    request at all.  With credentials it sends exactly one request, the
    status GET, and no POST; the result [r] of that call decides the end:
    a 200 response makes it return a snapshot, leaving the buffer as it
    is, every other result raises [UpdateFailed] with a message that tells
    an authentication failure, a connection failure and any other API
    error apart. *)
Theorem refresh_with_empty_buffer
    (s : coordinator) (r : http_result) (f : coordinator -> coordinator)
    (rest : list (answer * (coordinator -> coordinator))) :
  _data_buffer s = [] →
  if unauthenticated (_api_client s)
  then ∀ script,
         run (_async_update_data s) script
         = (Raised s (Exn UpdateFailed
                        (PStr "Authentication failed: Not authenticated")),
            [])
  else ∃ out,
         run (_async_update_data s) ((AnsHttp r, f) :: rest)
         = (out, [Awaited (HttpCall (status_request (_api_client s)))])
         ∧ match update_failure r with
           | Some e => out = Raised (f s) e
           | None => ∃ s' d, out = Returned s' d
                             ∧ _data_buffer s' = _data_buffer (f s)
           end.
Proof.
  intros Hb. destruct (unauthenticated (_api_client s)) eqn:Ha.
  - intros script. unfold _async_update_data. coro_simpl.
    rewrite upload_empty by done. coro_simpl.
    unfold async_get_status. coro_simpl. rewrite Ha. coro_simpl. cbn.
    by rewrite set_api_client_same.
  - unfold _async_update_data. coro_simpl. rewrite upload_empty by done.
    coro_simpl.
    rewrite fetch_status_run by done. eexists. split; [done|].
    destruct (update_failure r) eqn:Hr; [done|].
    destruct r as [status body| |msg]; try done.
    destruct (build_snapshot_spec body (f s)) as (s' & d & Hbuild & _).
    rewrite Hbuild. exists s', d. split; [done|].
    revert Hbuild. unfold build_snapshot. coro_simpl.
    case_decide; coro_simpl; by intros [= <- _].
Qed.


Lemma refresh_with_empty_buffer_witness :
  ∃ out,
    run (_async_update_data Scenario.idle) [(AnsHttp (Response 401 ∅), id)]
    = (out, [Awaited (HttpCall (status_request Scenario.paired_client))])
    ∧ out = Raised Scenario.idle
              (Exn UpdateFailed
                 (PStr "Authentication failed: Invalid or expired token")).
Proof.
  exact (refresh_with_empty_buffer Scenario.idle (Response 401 ∅) id []
           eq_refl).
Defined.





(** X9. A failed upload does not fail the refresh cycle.  With a non-empty
    buffer the cycle sends the POST first and the status GET second; when
    the POST fails with any API error and the GET is answered 200, the
    cycle still returns a snapshot with [connected] true, the batch is
    back in the buffer behind what arrived meanwhile, and the timestamp of
    the last upload is not touched. *)
Theorem refresh_survives_upload_failure
    (s : coordinator) (r : http_result) (f1 : coordinator -> coordinator)
    (status : pydict) (f2 : coordinator -> coordinator)
    (rest : list (answer * (coordinator -> coordinator))) :
  _data_buffer s ≠ [] →
  unauthenticated (_api_client s) = false →
  mapped_error r ≠ None →
  let batch := _data_buffer s in
  let s1 := restored batch (f1 (set_data_buffer [] s)) in
  unauthenticated (_api_client s1) = false →
  ∃ s' d,
    run (_async_update_data s)
        ((AnsHttp r, f1) :: (AnsHttp (Response 200 status), f2) :: rest)
    = (Returned s' d,
       [Awaited (HttpCall (readings_request (_api_client s) batch));
        Awaited (HttpCall (status_request (_api_client s1)))])
    ∧ _data_buffer s' = _data_buffer (f2 s1)
    ∧ _last_upload s' = _last_upload (f2 s1)
    ∧ d !! "connected" = Some (PBool true).
Proof.
  intros Hb Ha Hr batch s1 Ha1.
  destruct (build_snapshot_spec status (f2 s1)) as (s' & d & Hbuild & Hc & _).
  exists s', d. split.
  - unfold _async_update_data. coro_simpl.
    rewrite (run_bind _ _ _ _ _ _ (upload_run s r f1 _ Hb Ha)).
    rewrite decide_False by done. cbn [length drop].
    fold batch. fold s1. coro_simpl.
    by rewrite (fetch_and_build s1 status f2 rest s' d Ha1 Hbuild).
  - split; [|split; [|done]];
      revert Hbuild; unfold build_snapshot; coro_simpl; case_decide;
      coro_simpl; by intros [= <- _].
Qed.


Lemma refresh_survives_upload_failure_witness :
  ∃ s' d,
    run (_async_update_data Scenario.buffering)
        [(AnsHttp (Response 500 ∅), id); (AnsHttp (Response 200 ∅), id)]
    = (Returned s' d,
       [Awaited (HttpCall (readings_request Scenario.paired_client
                             [Scenario.solar_reading "1.5"]));
        Awaited (HttpCall (status_request Scenario.paired_client))])
    ∧ _data_buffer s' = [Scenario.solar_reading "1.5"]
    ∧ _last_upload s' = None
    ∧ d !! "connected" = Some (PBool true).
Proof.
  apply (refresh_survives_upload_failure Scenario.buffering (Response 500 ∅)
           id ∅ id []); done.
Defined.

(** X10. The debounced upload task, from start to end.  Cancelled during
    its sleep it raises [CancelledError] and has awaited nothing but the
    sleep.  Otherwise it looks at the buffer as it is when the sleep ends:
    if that is empty (or the client has no credentials) it sends nothing
    and goes on to request a refresh; if not, it sends the one request
    with that buffer, and on every result [r], whether the upload
    succeeds or fails with an API error, it then requests a refresh and
    returns.  When the answer is a 200 response whose body is not JSON
    the task ends at the upload, with [JSONDecodeError], and no refresh
    is requested. *)
Theorem debounced_upload_outcomes
    (s : coordinator) (f1 : coordinator -> coordinator) :
  let s1 := f1 s in
  (∀ rest, run (_async_debounced_upload s) ((AnsCancel, f1) :: rest)
     = (Raised s1 (Exn CancelledError PNone), [Awaited (AsyncioSleep 5)]))
  ∧ (_data_buffer s1 = [] ∨ unauthenticated (_api_client s1) = true →
     ∀ f2 rest,
       run (_async_debounced_upload s) ((AnsDone, f1) :: (AnsDone, f2) :: rest)
       = (Returned (f2 s1) tt,
          [Awaited (AsyncioSleep 5); Awaited AsyncRequestRefresh]))
  ∧ (_data_buffer s1 ≠ [] → unauthenticated (_api_client s1) = false →
     ∀ r f2 f3 rest,
       run (_async_debounced_upload s)
           ((AnsDone, f1) :: (AnsHttp r, f2) :: (AnsDone, f3) :: rest)
       = (Returned
            (f3 (let s2 := f2 (set_data_buffer [] s1) in
                 if decide (mapped_error r = None)
                 then uploaded (_data_buffer s1) s2
                 else restored (_data_buffer s1) s2)) tt,
          [Awaited (AsyncioSleep 5);
           Awaited (HttpCall (readings_request (_api_client s1)
                                (_data_buffer s1)));
           Awaited AsyncRequestRefresh]))
  ∧ (_data_buffer s1 ≠ [] → unauthenticated (_api_client s1) = false →
     ∀ msg f2 rest,
       run (_async_debounced_upload s)
           ((AnsDone, f1) :: (AnsBadBody 200 (BadJson msg), f2) :: rest)
       = (Raised (f2 (set_data_buffer [] s1))
            (Exn JSONDecodeError (PStr msg)),
          [Awaited (AsyncioSleep 5);
           Awaited (HttpCall (readings_request (_api_client s1)
                                (_data_buffer s1)))])).
Proof.
  intros s1. split; [|split; [|split]].
  4:{ intros Hb Ha msg f2 rest. unfold _async_debounced_upload.
      coro_simpl. fold s1.
      destruct (upload_authenticated s1 Hb Ha) as (k & -> & Hk).
      coro_simpl. rewrite Hk. unfold upload_resume.
      rewrite decide_True by done. by coro_simpl. }
  - intros rest. unfold _async_debounced_upload. by coro_simpl.
  - intros Hs f2 rest. unfold _async_debounced_upload. coro_simpl.
    fold s1.
    assert (_async_upload_buffered_data s1 = Ret s1 tt) as ->.
    { destruct Hs as [Hb|Ha]; [by apply upload_empty|].
      destruct (decide (_data_buffer s1 = [])); [by apply upload_empty|].
      by apply upload_unauthenticated. }
    by coro_simpl.
  - intros Hb Ha r f2 f3 rest. unfold _async_debounced_upload.
    coro_simpl. fold s1.
    destruct (upload_authenticated s1 Hb Ha) as (k & -> & Hk).
    coro_simpl. rewrite Hk. unfold upload_resume.
    destruct (mapped_error r);
      [rewrite decide_False by done|rewrite decide_True by done];
      by coro_simpl.
Qed.


(** X11. A batch that failed is counted once, when it goes through.  After
    a failed flush, during which the state changes [evs] arrived, the
    counter is as before; the next flush sends the new readings and the
    old batch in one request, and when that is answered 200 the counter
    has grown by the sizes of both and nothing of either is left in the
    buffer. *)
Theorem retry_counts_each_reading_once
    (s : coordinator) (r1 : http_result) (evs : list event) (body : pydict)
    (f : coordinator -> coordinator)
    (rest : list (answer * (coordinator -> coordinator))) :
  _data_buffer s ≠ [] →
  unauthenticated (_api_client s) = false →
  mapped_error r1 ≠ None →
  let batch := _data_buffer s in
  ∃ s1 s2,
    run (_async_upload_buffered_data s) [(AnsHttp r1, deliver evs)]
    = (Returned s1 tt,
       [Awaited (HttpCall (readings_request (_api_client s) batch))])
    ∧ run (_async_upload_buffered_data s1)
          ((AnsHttp (Response 200 body), f) :: rest)
      = (Returned s2 tt,
         [Awaited (HttpCall (readings_request (_api_client s)
                               (readings_of evs ++ batch)))])
    ∧ _readings_today s1 = _readings_today s
    ∧ _readings_today s2
      = _readings_today (f (set_data_buffer [] s1))
        + Z.of_nat (length batch) + Z.of_nat (length (readings_of evs))
    ∧ _data_buffer s2 = _data_buffer (f (set_data_buffer [] s1)).
Proof.
  intros Hb Ha Hr batch.
  set (s1 := restored batch (deliver evs (set_data_buffer [] s))).
  destruct (deliver_fields evs (set_data_buffer [] s))
    as (Hbuf & Hcl & _ & Hrt & _).
  assert (_data_buffer s1 = readings_of evs ++ batch) as Hb1
    by (cbn; by rewrite Hbuf).
  assert (_api_client s1 = _api_client s) as Hc1 by (cbn; by rewrite Hcl).
  assert (_data_buffer s1 ≠ []) as Hne.
  { rewrite Hb1. intros [_ ?]%app_eq_nil. done. }
  assert (unauthenticated (_api_client s1) = false) as Ha1 by by rewrite Hc1.
  exists s1. eexists. split.
  { rewrite upload_run by done. by rewrite decide_False. }
  split.
  { rewrite upload_run by done. rewrite decide_True by done.
    by rewrite Hc1, Hb1. }
  split; [cbn; by rewrite Hrt|].
  unfold uploaded.
  cbn [_readings_today _data_buffer set_readings_today set_last_upload].
  rewrite length_app. split; [lia|done].
Qed.

Lemma retry_counts_each_reading_once_witness :
  ∃ s1 s2,
    run (_async_upload_buffered_data Scenario.buffering)
        [(AnsHttp (Response 500 ∅), deliver [Scenario.solar "2.5"])]
    = (Returned s1 tt,
       [Awaited (HttpCall (readings_request Scenario.paired_client
                             [Scenario.solar_reading "1.5"]))])
    ∧ run (_async_upload_buffered_data s1) [(AnsHttp (Response 200 ∅), id)]
      = (Returned s2 tt,
         [Awaited (HttpCall (readings_request Scenario.paired_client
                               [Scenario.solar_reading "2.5";
                                Scenario.solar_reading "1.5"]))])
    ∧ _readings_today s2 = 2
    ∧ _data_buffer s2 = [].
Proof.
  destruct (retry_counts_each_reading_once Scenario.buffering
              (Response 500 ∅) [Scenario.solar "2.5"] ∅ id [])
    as (s1 & s2 & H1 & H2 & Hrt1 & Hcount & Hbuf); [done..|].
  exists s1, s2. split; [exact H1|]. split; [exact H2|].
  split; [|exact Hbuf].
  rewrite Hcount. cbn [id _readings_today set_data_buffer]. by rewrite Hrt1.
Defined.

End CoordinatorMore.

(** ** A rule for the event loop

    If every write the coordinator's code makes is a step of a preorder
    [G], then every state the loop reaches from [s0] is [G]-related to
    [s0], whatever the order of events and answers. *)

Module LoopMore.
Import Api Coordinator EventLoop ApiSpec CoordinatorSpec LoopSpec.
Import LoopRuleSpec.
Import ApiFacts UploadFacts UpdateFacts LoopFacts ApiMore CoordinatorMore.

Section LoopRule.
Context (G : coordinator -> coordinator -> Prop) `{!PreOrder G}.
Hypothesis G_hass : ∀ h s, G s (set_hass h s).
Hypothesis G_task : ∀ t s, G s (set_upload_task t s).
Hypothesis G_buffer : ∀ b s, G s (set_data_buffer b s).
Hypothesis G_last : ∀ d s, G s (set_last_upload (Some d) s).
Hypothesis G_add :
  ∀ n s, G s (set_readings_today (_readings_today s + Z.of_nat n) s).
Hypothesis G_reset : ∀ s, G s (set_readings_today 0 s).
Hypothesis G_date : ∀ d s, G s (set_readings_today_date (Some d) s).
Hypothesis G_client :
  ∀ A (c : coro client A) s,
    guarantees eq (λ _ _, True) (_api_client s) c →
    guarantees G (λ _ _, True) s (zoom_coro _api_client set_api_client s c).

Lemma upload_moves s :
  guarantees G (λ _ _, True) s (_async_upload_buffered_data s).
Proof.
  unfold _async_upload_buffered_data. coro_simpl.
  case_bool_decide; [cbn; split; [reflexivity|done]|]. coro_simpl.
  apply (guarantees_from _ _ _ (set_data_buffer [] s)); [apply G_buffer|].
  apply guarantees_catch; [apply _| |].
  - eapply guarantees_bind; [apply _| |].
    + apply G_client, post_readings_writes_nothing.
    + intros _ s1 _. cbn. split; [|done].
      etrans; [apply (G_last (now s1))|].
      apply (G_add _ (set_last_upload (Some (now s1)) s1)).
  - intros e m s1. destruct (is_api_error e); [|done].
    intros [= <-]. cbn. split; [|exact I]. apply G_buffer.
Qed.

Lemma debounced_upload_moves s :
  guarantees G (λ _ _, True) s (_async_debounced_upload s).
Proof.
  unfold _async_debounced_upload. coro_simpl. cbn. split; [reflexivity|].
  intros [[]|] s1; coro_simpl; [|cbn; reflexivity].
  eapply guarantees_bind; [apply _|apply upload_moves|].
  intros _ s2 _. cbn. split; [reflexivity|].
  intros [[]|] s3; cbn; [split; [reflexivity|done]|reflexivity].
Qed.

Lemma update_data_moves s :
  guarantees G (λ _ _, True) s (_async_update_data s).
Proof.
  unfold _async_update_data. coro_simpl.
  eapply guarantees_bind; [apply _|apply upload_moves|].
  intros _ s1 _.
  eapply guarantees_bind; [apply _| |].
  - apply guarantees_catch; [apply _| |].
    + apply G_client, get_status_writes_nothing.
    + intros e m s2. unfold except_update_failed.
      destruct (exn_cls e); try done; intros [= <-]; cbn; reflexivity.
  - intros status s2 _. unfold build_snapshot. coro_simpl.
    assert (G s2 (set_readings_today_date (Some (dt_date (now s2)))
                    (set_readings_today 0 s2))) as Hreset.
    { etrans; [apply G_reset|].
      apply (G_date _ (set_readings_today 0 s2)). }
    destruct status; case_decide; coro_simpl; cbn;
      try (split; [|done]); first [exact Hreset|reflexivity].
Qed.

Lemma settle_task_moves s0 t c l :
  moves_by G s0 l → guarantees G (λ _ _, True) (self l) c →
  moves_by G s0 (settle_task t c l).
Proof.
  intros [Hs Hu Hr] Hc. destruct c as [s a|s e|s R w k]; cbn in Hc.
  - destruct Hc as [Hc _]. split; cbn; [|
      intros t' c' [_ Hl]%lookup_delete_Some; by eapply Hu|done].
    etrans; [exact Hs|]. etrans; [exact Hc|]. apply G_hass.
  - split; cbn; [|
      intros t' c' [_ Hl]%lookup_delete_Some; by eapply Hu|done].
    etrans; [exact Hs|]. etrans; [exact Hc|]. apply G_hass.
  - destruct Hc as [Hc Hk]. split; cbn; [by etrans| |done].
    intros t' c' [[<- <-]|[_ Hl]]%lookup_insert_Some; [exact Hk|].
    by eapply Hu.
Qed.

Lemma settle_refresh_moves s0 i c l :
  moves_by G s0 l → guarantees G (λ _ _, True) (self l) c →
  moves_by G s0 (settle_refresh i c l).
Proof.
  intros [Hs Hu Hr] Hc. destruct c as [s a|s e|s R w k]; cbn in Hc.
  - destruct Hc as [Hc _]. split; cbn; [by etrans|done|].
    intros i' c' [_ Hl]%lookup_delete_Some. by eapply Hr.
  - split; cbn; [by etrans|done|].
    intros i' c' [_ Hl]%lookup_delete_Some. by eapply Hr.
  - destruct Hc as [Hc Hk]. split; cbn; [by etrans|done|].
    intros i' c' [[<- <-]|[_ Hl]]%lookup_insert_Some; [exact Hk|].
    by eapply Hr.
Qed.

Lemma handle_state_change_moves ev s : G s (_handle_state_change ev s).
Proof.
  unfold _handle_state_change.
  destruct (ev_new_state ev) as [st|]; [|reflexivity].
  set (s1 := set_data_buffer _ s).
  transitivity s1; [apply G_buffer|]. unfold _schedule_upload.
  assert (G s1 (set_upload_task (Some (length (loop_tasks (hass s1))))
                  (set_hass (Hass (clock (hass s1))
                               (loop_tasks (hass s1) ++ [TaskPending])) s1)))
    as Hcreate by (etrans; [apply G_hass|apply G_task]).
  destruct (_upload_task s1) as [t|]; [|exact Hcreate].
  destruct (task_done (hass s1) t); [exact Hcreate|reflexivity].
Qed.

Lemma step_moves s0 l a : moves_by G s0 l → moves_by G s0 (step l a).
Proof.
  intros Hl. destruct a as [ev|d|t|t ans|i|i ans]; cbn.
  - destruct Hl as [Hs Hu Hr]. split; cbn; [|done|done].
    etrans; [exact Hs|]. apply handle_state_change_moves.
  - destruct Hl as [Hs Hu Hr]. split; cbn; [|done|done].
    etrans; [exact Hs|]. apply G_hass.
  - case_decide; [|done].
    apply settle_task_moves; [done|apply debounced_upload_moves].
  - destruct (uploads l !! t) as [[| |s R w k]|] eqn:Hw; try done.
    destruct (typed w ans) as [o|]; [|done].
    apply settle_task_moves; [done|]. apply (by_uploads G s0 l Hl t _ Hw).
  - case_decide; [|done].
    apply settle_refresh_moves; [done|apply update_data_moves].
  - destruct (refreshes l !! i) as [[| |s R w k]|] eqn:Hw; try done.
    destruct (typed w ans) as [o|]; [|done].
    apply settle_refresh_moves; [done|].
    apply (by_refreshes G s0 l Hl i _ Hw).
Qed.

Lemma exec_moves s0 acts : G s0 (self (exec (start s0) acts)).
Proof.
  assert (∀ l, moves_by G s0 l → moves_by G s0 (exec l acts)) as H.
  { induction acts as [|a acts IH]; intros l Hl; [done|].
    apply IH, step_moves, Hl. }
  apply H. split; cbn; done.
Qed.
End LoopRule.

#[local] Instance same_client_preorder : PreOrder same_client.
Proof.
  split; [by intros s|]. intros s1 s2 s3 H1 H2. unfold same_client in *.
  congruence.
Qed.

#[local] Instance bookkeeping_kept_preorder : PreOrder bookkeeping_kept.
Proof.
  split; [by intros s|].
  intros s1 s2 s3 (? & ? & ?) (? & ? & ?). repeat split; auto.
Qed.

(** A method that leaves the client as it is, run inside the coordinator,
    leaves the coordinator's client as it is. *)
Lemma on_client_same_client {A} (c : coro client A) s :
  guarantees eq (λ _ _, True) (_api_client s) c →
  guarantees same_client (λ _ _, True) s
    (zoom_coro _api_client set_api_client s c).
Proof.
  revert s. induction c as [t a|t e|t R w k IH]; cbn; intros s.
  - by intros [<- _].
  - by intros <-.
  - intros [<- Hk]. split; [done|]. intros o s'. apply IH, Hk.
Qed.

Lemma on_client_bookkeeping {A} (c : coro client A) s :
  guarantees bookkeeping_kept (λ _ _, True) s
    (zoom_coro _api_client set_api_client s c).
Proof.
  revert s. induction c as [t a|t e|t R w k IH]; cbn; intros s.
  - done.
  - done.
  - split; [done|]. intros o s'. apply IH.
Qed.

(** X12. The coordinator never changes the credentials it was given.  In
    every state the event loop can reach, whatever state changes, clock
    ticks, upload tasks, refresh cycles and answers (cancellation among
    them) there were, the client holds the URL, token and instance id it
    held at the start. *)
Theorem credentials_never_change
    (s0 : coordinator) (acts : list action) :
  _api_client (self (exec (start s0) acts)) = _api_client s0.
Proof.
  apply (exec_moves same_client); try done.
  intros A c s. apply on_client_same_client.
Qed.

(** X13. The bookkeeping of uploads is never undone.  From a counter that
    is not negative the loop never reaches a negative one; a counter date
    and a timestamp of the last upload, once set, are never unset.  In
    particular a new coordinator never reports a negative
    [readings_today]. *)
Theorem bookkeeping_is_kept
    (s0 : coordinator) (acts : list action) :
  let s := self (exec (start s0) acts) in
  (0 ≤ _readings_today s0 → 0 ≤ _readings_today s)
  ∧ (is_Some (_readings_today_date s0) → is_Some (_readings_today_date s))
  ∧ (is_Some (_last_upload s0) → is_Some (_last_upload s))
  ∧ ∀ clk api_url token instance_id,
      s0 = init clk api_url token instance_id → 0 ≤ _readings_today s.
Proof.
  intros s.
  assert (bookkeeping_kept s0 s) as (Hc & Hd & Hl).
  { apply (exec_moves bookkeeping_kept); try done.
    - intros n s1. repeat split; cbn; try done. lia.
    - intros A c s1 _. apply on_client_bookkeeping. }
  repeat split; try done. intros clk api_url token instance_id ->.
  by apply Hc.
Qed.

End LoopMore.

(** ** Reasoning with [returns_after] *)

Lemma returns_after_bind {S A B} (Q : http_reply -> S -> B -> Prop)
    (c : coro S A) (f : A -> M S B) last :
  (∀ last' a s, returns_after Q last' (f a s)) →
  returns_after Q last (bind_coro c f).
Proof.
  intros Hf. revert last.
  induction c as [s a|s e|s R w k IH]; intros last; cbn.
  - apply Hf.
  - done.
  - intros o s'. apply IH.
Qed.

Lemma returns_after_run {S A} (Q : http_reply -> S -> A -> Prop)
    (c : coro S A) last script s' a tr :
  returns_after Q last c →
  run c script = (Returned s' a, tr) →
  ∃ r, Q r s' a
       ∧ match tr with
         | [] => last = Some r
         | _ => ∃ g, script !! (length tr - 1)%nat
                     = Some (reply_answer r, g)
         end.
Proof.
  revert last script tr.
  induction c as [s b|s e|s R w k IH]; intros last script tr; cbn.
  - intros (r & -> & HQ) [= -> -> <-]. by exists r.
  - done.
  - intros Hk. destruct script as [|[ans g] rest]; [done|].
    destruct (typed w ans) as [o|] eqn:Hty; [|done].
    destruct (run (k o (g s)) rest) as [out tr'] eqn:Hrun.
    intros [= -> <-].
    destruct (IH o (g s) _ _ _ (Hk o (g s)) Hrun) as (r & HQ & Hlast).
    exists r. split; [done|].
    destruct tr' as [|x tr'].
    + exists g. cbn.
      destruct w; cbn in *; destruct ans; simplify_eq; done.
    + destruct Hlast as (g' & Hl). exists g'. cbn in *.
      by rewrite Nat.sub_0_r in Hl.
Qed.

(** ** The entities *)

Module EntityMore.
Import Api Coordinator EventLoop LoopSpec EntitySpec Entities.

Lemma build_snapshot_shows (status : pydict) s :
  ∃ s' d, build_snapshot (JsonObject status) s = Ret s' d
          ∧ shows status s' d.
Proof.
  unfold build_snapshot. coro_simpl.
  case_decide; coro_simpl; eexists _, _; (split; [reflexivity|]);
    by repeat split.
Qed.

Lemma update_data_returns s :
  returns_after
    (λ r s' d,
       ∃ status, r = Reply (Response 200 status) ∧ shows status s' d)
    None (_async_update_data s).
Proof.
  unfold _async_update_data. coro_simpl.
  apply returns_after_bind. intros last _ s1.
  unfold async_get_status. coro_simpl.
  destruct (unauthenticated (_api_client s1)); coro_simpl; cbn; [done|].
  intros [r|] s2; coro_simpl; cbn; [|done].
  destruct r as [[status body| |msg]|status [msg|msg|]]; coro_simpl; cbn;
    try done; repeat case_decide; coro_simpl; cbn; try done.
  - destruct (build_snapshot_shows body
                (set_api_client (_api_client s2) s2)) as (s' & d & -> & Hd).
    cbn. exists (Reply (Response status body)). split; [done|].
    exists body. split; [|done]. do 2 f_equal. lia.
  - unfold build_snapshot. coro_simpl. case_decide; by coro_simpl.
Qed.

(** X14. The entities show what the status call of the last refresh was
    answered.  Whenever a refresh cycle returns a dict, the last thing it
    awaited was answered with an HTTP 200 response that has a JSON object
    as body, and from that dict the
    recommendation sensor shows the [recommendation] of the response body
    ("No action needed" when the body has no such key, but [None] when the
    body carries it as null), its attributes [reason] and [valid_until]
    are the body's [recommendation_reason] and [recommendation_expires],
    the tariff sensor shows [current_rate_pence], the connectivity sensor
    is on, and the counter sensor shows the coordinator's counter as the
    cycle left it. *)
Theorem entities_show_the_status_answer
    (s s' : coordinator) (script : list (answer * (coordinator -> coordinator)))
    (d : pydict) (tr : list awaited) :
  run (_async_update_data s) script = (Returned s' d, tr) →
  ∃ status g,
    script !! (length tr - 1)%nat = Some (AnsHttp (Response 200 status), g)
    ∧ shows status s' d.
Proof.
  intros Hrun.
  destruct (returns_after_run _ _ _ _ _ _ _ (update_data_returns s) Hrun)
    as (r & (status & -> & Hd) & Hlast).
  destruct tr as [|x tr]; [done|]. destruct Hlast as (g & Hl).
  by exists status, g.
Qed.

Lemma entities_show_the_status_answer_witness :
  ∃ s' d tr,
    run (_async_update_data Scenario.idle)
        [(AnsHttp (Response 200 {[ "recommendation" := PNone ]}), id)]
    = (Returned s' d, tr)
    ∧ (∃ status g,
         [(AnsHttp (Response 200 {[ "recommendation" := PNone ]}),
           @id coordinator)] !! (length tr - 1)%nat
         = Some (AnsHttp (Response 200 status), g)
         ∧ shows status s' d)
    ∧ Entities.recommendation (Some d) = PNone.
Proof.
  eexists _, _, _. split; [reflexivity|]. split; [|reflexivity].
  eapply (entities_show_the_status_answer Scenario.idle).
  reflexivity.
Defined.

(** X15. In every state the loop can reach from a new coordinator, the
    icon of the status sensor and the connectivity sensor follow [data]
    alone: without data the icon is the question mark and the
    connectivity sensor is off; with data the icon is the check mark and
    the connectivity sensor is on.  The icons for "syncing" and "error"
    are never shown, and no failed refresh turns the connectivity sensor
    off again. *)
Theorem icon_and_connection_follow_data
    (clk : datetime) (api_url : string) (token instance_id : pyval)
    (acts : list action) :
  let l := exec (start (init clk api_url token instance_id)) acts in
  match data l with
  | Some _ =>
      SyncStatusSensor.icon (data l) = "mdi:cloud-check"
      ∧ is_on (data l) = PBool true
  | None =>
      SyncStatusSensor.icon (data l) = "mdi:cloud-question"
      ∧ is_on (data l) = PBool false
  end.
Proof.
  intros l.
  assert (loop_inv l) as Hl
    by (apply LoopFacts.exec_inv, LoopFacts.start_inv; done).
  destruct (data l) as [d|] eqn:Hdata; [|done].
  destruct (inv_data l Hl d Hdata) as [Hc Hs].
  unfold SyncStatusSensor.icon, SyncStatusSensor.native_value, is_on,
    dict_get_default.
  by rewrite Hc, Hs.
Qed.

Lemma to_list_app s t :
  String.list_ascii_of_string (s +:+ t)
  = String.list_ascii_of_string s ++ String.list_ascii_of_string t.
Proof.
  induction s as [|a s IH]; [done|].
  change (a :: String.list_ascii_of_string (s +:+ t)
          = a :: String.list_ascii_of_string s
               ++ String.list_ascii_of_string t).
  by rewrite IH.
Qed.

Lemma to_list_inj s t :
  String.list_ascii_of_string s = String.list_ascii_of_string t → s = t.
Proof.
  intros H. rewrite <-(String.string_of_list_ascii_of_string s),
    <-(String.string_of_list_ascii_of_string t). by rewrite H.
Qed.

(** Strings that are equal are equal read from the end. *)
Lemma app_eq_reverse s1 s2 a b :
  s1 +:+ a = s2 +:+ b →
  reverse (String.list_ascii_of_string a)
    ++ reverse (String.list_ascii_of_string s1)
  = reverse (String.list_ascii_of_string b)
      ++ reverse (String.list_ascii_of_string s2).
Proof.
  intros H. apply (f_equal String.list_ascii_of_string) in H.
  rewrite !to_list_app in H. apply (f_equal reverse) in H.
  by rewrite !reverse_app in H.
Qed.

Lemma unique_ids_keys i :
  unique_ids i
  = (λ key, py_str i +:+ "_" +:+ key) <$> (sensor_keys ++ ["connected"]).
Proof. done. Qed.

Lemma unique_id_inj i1 i2 k1 k2 :
  k1 ∈ sensor_keys ++ ["connected"] →
  k2 ∈ sensor_keys ++ ["connected"] →
  py_str i1 +:+ "_" +:+ k1 = py_str i2 +:+ "_" +:+ k2 →
  py_str i1 = py_str i2 ∧ k1 = k2.
Proof.
  intros H1 H2 Heq.
  generalize dependent (py_str i1). generalize dependent (py_str i2).
  intros p2 p1 Heq.
  apply app_eq_reverse in Heq.
  cbn in H1, H2.
  repeat (apply elem_of_cons in H1 as [->|H1]);
    [..|by apply elem_of_nil in H1];
    (repeat (apply elem_of_cons in H2 as [->|H2]);
       [..|by apply elem_of_nil in H2]);
    cbn in Heq; simplify_eq;
    (split; [|done]); by apply to_list_inj.
Qed.

(** X16. The unique ids of the entities never collide.  The seven
    entities of one config entry, the six sensors and the connectivity
    sensor, have seven different unique ids; and an id of an entity of
    one entry is an id of an entity of another entry only when the two
    instance ids print the same. *)
Theorem unique_ids_are_unique (i1 i2 : pyval) :
  length (unique_ids i1) = 7%nat
  ∧ NoDup (unique_ids i1)
  ∧ (∀ x, x ∈ unique_ids i1 → x ∈ unique_ids i2 → py_str i1 = py_str i2).
Proof.
  split; [done|]. split.
  - rewrite unique_ids_keys. apply NoDup_fmap_2.
    + intros k1 k2 H.
      by apply (inj (String.app _)), (inj (String.app _)) in H.
    + by apply (bool_decide_unpack _).
  - intros x. rewrite !unique_ids_keys.
    intros (k1 & -> & H1)%list_elem_of_fmap (k2 & Heq & H2)%list_elem_of_fmap.
    by destruct (unique_id_inj i1 i2 k1 k2 H1 H2 Heq).
Qed.

End EntityMore.

(** ** Construction and the config flow *)

Module ConstructionMore.
Import Api Coordinator Construction ConfigFlow ApiSpec ConfigFlowSpec.
Import Stdlib.Strings.Ascii.

Lemma rstrip_slash_slashes n : rstrip_slash (slashes n) = "".
Proof. induction n as [|n IH]; [done|]. cbn. by rewrite IH. Qed.

Lemma rstrip_slash_app s n : rstrip_slash (s +:+ slashes n) = rstrip_slash s.
Proof.
  induction s as [|a s IH].
  - apply rstrip_slash_slashes.
  - change (rstrip_slash (String a (s +:+ slashes n))
            = rstrip_slash (String a s)).
    cbn [rstrip_slash]. by rewrite IH.
Qed.

Lemma rstrip_slash_prefix s : ∃ n, s = rstrip_slash s +:+ slashes n.
Proof.
  induction s as [|a s [n IH]]; [by exists 0%nat|].
  cbn. destruct (rstrip_slash s) as [|b r] eqn:Hr.
  - destruct (Ascii.eqb_spec a "/"%char) as [->|Hne].
    + exists (S n). cbn. by rewrite IH at 1.
    + exists n. cbn. by rewrite IH at 1.
  - exists n. cbn. by rewrite IH at 1.
Qed.

Lemma rstrip_slash_no_trailing s t : rstrip_slash s ≠ t +:+ "/".
Proof.
  revert t. induction s as [|a s IH]; intros t; cbn.
  - by destruct t.
  - destruct (rstrip_slash s) as [|b r] eqn:Hr.
    + destruct (Ascii.eqb_spec a "/"%char) as [->|Hne].
      * by destruct t.
      * destruct t as [|c t]; cbn; [by intros [= ?]|]. by destruct t.
    + destruct t as [|c t]; cbn; [done|].
      intros [= -> Ht]. by apply (IH t).
Qed.


(** X17. The client keeps the API URL without the slashes at its end.
    The URL given to the constructor is the kept one followed by slashes
    only; the kept one does not end in a slash; and URLs that differ only
    in slashes at the end make the same client.  Token and instance id
    are kept as given. *)
Theorem client_url_has_no_trailing_slash
    (api_url : string) (token instance_id : pyval) :
  let c := new_client api_url token instance_id in
  (∃ n, api_url = Api._api_url c +:+ slashes n)
  ∧ (∀ t, Api._api_url c ≠ t +:+ "/")
  ∧ (∀ n, new_client (api_url +:+ slashes n) token instance_id = c)
  ∧ Api._token c = token ∧ Api._instance_id c = instance_id.
Proof.
  intros c. split; [apply rstrip_slash_prefix|].
  split; [apply rstrip_slash_no_trailing|].
  split; [|done]. intros n. unfold c, new_client.
  by rewrite rstrip_slash_app.
Qed.


Lemma dict_get_insert (d : pydict) k v : dict_get (<[k := v]> d) k = v.
Proof. unfold dict_get. by rewrite lookup_insert_eq. Qed.

Lemma dict_get_insert_ne (d : pydict) k k' v :
  k ≠ k' → dict_get (<[k := v]> d) k' = dict_get d k'.
Proof. intros. unfold dict_get. by rewrite lookup_insert_ne. Qed.

(** X19. From the flow to the coordinator.  Whatever key the entry keeps
    the API URL under, as long as it is neither [api_token] nor
    [instance_id]: on the entry that the entities step creates,
    [GreenEnergyCoordinator.__init__] gets as far as [timedelta], and
    what the user chose as scan interval, 60 without a choice, decides.
    An integer that a [timedelta] can hold makes an empty coordinator
    whose client holds the token and the instance id of the flow and the
    flow's URL without trailing slashes, with that interval; so does every
    value the form lets through, an integer from 30 to 3600.  A choice of
    [None] or a string raises [TypeError], an integer beyond 999999999
    days [OverflowError], and no coordinator is built.  The entities the
    entry monitors are the chosen ones among solar, battery and grid, in
    this order, an entity left out or empty being skipped; the entry's
    instance id is the flow's. *)
Theorem entry_round_trip
    (CONF_API_URL : string) (f : flow) (user_input : pydict)
    (clk : datetime) :
  CONF_API_URL ≠ "api_token" → CONF_API_URL ≠ "instance_id" →
  ∃ title data options,
    async_step_entities CONF_API_URL (Some user_input) f
    = CreateEntry title data options
    ∧ (let built :=
         init clk (rstrip_slash (ConfigFlow._api_url f))
              (ConfigFlow._token f) (ConfigFlow._instance_id f) in
       let chosen := dict_get_default user_input "scan_interval" (PInt 60) in
       coordinator_init CONF_API_URL clk data options
       = match timedelta_seconds chosen with
         | inr seconds => inr (built, seconds)
         | inl error => inl error
         end
       ∧ (∀ n, chosen = PInt n → 30 ≤ n ≤ 3600 →
               coordinator_init CONF_API_URL clk data options
               = inr (built, n))
       ∧ (chosen = PNone ∨ (∃ s, chosen = PStr s) →
          coordinator_init CONF_API_URL clk data options
          = inl InitTypeError)
       ∧ (∀ n, chosen = PInt n → 86399999999999 < n →
               coordinator_init CONF_API_URL clk data options
               = inl InitOverflowError))
    ∧ monitored_entities options
      = filter (λ v, truthy v = true)
          [dict_get user_input "solar_entity";
           dict_get user_input "battery_entity";
           dict_get user_input "grid_entity"]
    ∧ data !! "instance_id" = Some (ConfigFlow._instance_id f).
Proof.
  intros Ht Hi. eexists _, _, _. split; [reflexivity|].
  split; [|split].
  - assert (coordinator_init CONF_API_URL clk
              (<[CONF_API_URL := PStr (ConfigFlow._api_url f)]>
               (<["user_email" := ConfigFlow._user_email f]>
               (<["instance_id" := ConfigFlow._instance_id f]>
               (<["api_token" := ConfigFlow._token f]> (∅ : pydict)))))
              (<["scan_interval" :=
                   dict_get_default user_input "scan_interval"
                     (PInt DEFAULT_SCAN_INTERVAL)]>
               (<["grid_entity" := dict_get user_input "grid_entity"]>
               (<["battery_entity" := dict_get user_input "battery_entity"]>
               (<["solar_entity" := dict_get user_input "solar_entity"]>
                  (∅ : pydict)))))
            = match timedelta_seconds
                      (dict_get_default user_input "scan_interval" (PInt 60))
              with
              | inr seconds =>
                  inr (init clk (rstrip_slash (ConfigFlow._api_url f))
                            (ConfigFlow._token f) (ConfigFlow._instance_id f),
                       seconds)
              | inl error => inl error
              end) as Hinit.
    { unfold coordinator_init, dict_get_default.
      repeat (rewrite lookup_insert_eq || rewrite lookup_insert_ne by done).
      cbn [default]. done. }
    cbn zeta. rewrite Hinit. split; [done|].
    split; [|split].
    + intros n -> Hn. unfold timedelta_seconds.
      by rewrite decide_True by lia.
    + intros [->|[s ->]]; done.
    + intros n -> Hn. unfold timedelta_seconds.
      by rewrite decide_False by lia.
  - unfold monitored_entities. cbn [foldl].
    repeat (rewrite dict_get_insert || rewrite dict_get_insert_ne by done).
    rewrite !filter_cons, filter_nil.
    destruct (truthy (dict_get user_input "solar_entity")),
      (truthy (dict_get user_input "battery_entity")),
      (truthy (dict_get user_input "grid_entity")); done.
  - repeat (rewrite lookup_insert_eq || rewrite lookup_insert_ne by done).
    done.
Qed.

Lemma entry_round_trip_witness :
  ∃ title data options,
    async_step_entities "api_url"
      (Some {[ "solar_entity" := PStr "sensor.solar_power";
               "battery_entity" := PNone;
               "scan_interval" := PInt 120 ]})
      (Flow (PStr "tok") (PStr "inst") (PStr "a@b.c") "https://x.test")
    = CreateEntry title data options
    ∧ coordinator_init "api_url" Scenario.noon data options
      = inr (init Scenario.noon "https://x.test" (PStr "tok") (PStr "inst"),
             120)
    ∧ monitored_entities options = [PStr "sensor.solar_power"]
    ∧ data !! "instance_id" = Some (PStr "inst").
Proof.
  destruct (entry_round_trip "api_url"
              (Flow (PStr "tok") (PStr "inst") (PStr "a@b.c")
                    "https://x.test")
              {[ "solar_entity" := PStr "sensor.solar_power";
                 "battery_entity" := PNone;
                 "scan_interval" := PInt 120 ]}
              Scenario.noon ltac:(done) ltac:(done))
    as (title & data & options & Hentry & (Hinit & _) & Hmon & Hid).
  exists title, data, options. vm_compute in Hentry.
  injection Hentry as <- <- <-.
  split; [reflexivity|]. split; [exact Hinit|]. split; [exact Hmon|exact Hid].
Defined.

End ConstructionMore.
